(** * First-passage times on weighted graphs with a void state

    A shallow embedding of the two core functions of the notebook
    [2019-09-18-TF_kinetics.ipynb]:

    - [matrix_with_void], which adds the "void" node to an adjacency matrix;
    - [GMFPT_theory], which evaluates the spectral formula of Lin et al. for
      the global mean first passage time.

    Numbers.  A finite float64 is a rational number, so array entries are
    modelled as canonical rationals ([Qc]) extended with the IEEE special
    values [+inf], [-inf] and [nan].  Arithmetic on finite values is exact
    and zero carries no sign.  The statements about the functions say which
    expression an entry is, what shape a result has, whether a call returns
    or raises and what it writes; they do not say that a float64 result is
    a given number to the last bit.  Where the order of two results is
    stated, it is over [Rounded], arithmetic that rounds after each
    operation.  What is modelled throughout is where the two kinds of
    division of the source part ways: a division of numpy values by zero
    yields [inf] or [nan], a division of Python floats by zero raises
    [ZeroDivisionError].

    The eigen-solver [scipy.linalg.eig] is not part of the repository; it is
    a parameter of the development. *)

From Stdlib Require Import QArith Qcanon Qround.
From stdpp Require Import numbers list sorting.

(** ** Values *)

Inductive np_float : Type :=
  | Fin (x : Qc)
  | Inf (neg : bool)
  | NaN.

Global Instance np_float_inhabited : Inhabited np_float := populate (Fin 0%Qc).
Global Instance Qc_inhabited : Inhabited Qc := populate 0%Qc.

Definition is_finite (x : np_float) : bool :=
  match x with Fin _ => true | _ => false end.

(** [rat n d] is the rational n/d. *)
Definition rat (n : Z) (d : positive) : Qc := Q2Qc (n # d).

(** The float of a Python int. *)
Definition float_of_nat (n : nat) : np_float := Fin (Qc_of_Z (Z.of_nat n)).

Definition fneg (x : np_float) : np_float :=
  match x with
  | Fin a => Fin (- a)%Qc
  | Inf s => Inf (negb s)
  | NaN => NaN
  end.

Definition fadd (x y : np_float) : np_float :=
  match x, y with
  | Fin a, Fin b => Fin (a + b)%Qc
  | Fin _, Inf s | Inf s, Fin _ => Inf s
  | Inf s, Inf t => if Bool.eqb s t then Inf s else NaN
  | NaN, _ | _, NaN => NaN
  end.

Definition fsub (x y : np_float) : np_float := fadd x (fneg y).

(** inf times a finite value: the sign of the finite factor decides. *)
Definition inf_times (s : bool) (a : Qc) : np_float :=
  match (a ?= 0)%Qc with
  | Eq => NaN
  | Gt => Inf s
  | Lt => Inf (negb s)
  end.

Definition fmul (x y : np_float) : np_float :=
  match x, y with
  | Fin a, Fin b => Fin (a * b)%Qc
  | Fin a, Inf s | Inf s, Fin a => inf_times s a
  | Inf s, Inf t => Inf (xorb s t)
  | NaN, _ | _, NaN => NaN
  end.

(** numpy's true division: dividing by zero does not raise, it yields
    [inf] (or [nan] for 0/0). *)
Definition fdiv (x y : np_float) : np_float :=
  match x, y with
  | Fin a, Fin b =>
      match (b ?= 0)%Qc with
      | Eq => match (a ?= 0)%Qc with
              | Eq => NaN
              | Gt => Inf false
              | Lt => Inf true
              end
      | _ => Fin (a / b)%Qc
      end
  | Fin _, Inf _ => Fin 0%Qc
  | Inf s, Fin b => match (b ?= 0)%Qc with Lt => Inf (negb s) | _ => Inf s end
  | Inf _, Inf _ => NaN
  | NaN, _ | _, NaN => NaN
  end.

(** [x**2] *)
Definition fpow2 (x : np_float) : np_float := fmul x x.

Declare Scope fl_scope.
Delimit Scope fl_scope with F.
Bind Scope fl_scope with np_float.
Infix "+" := fadd : fl_scope.
Infix "-" := fsub : fl_scope.
Infix "*" := fmul : fl_scope.
Infix "/" := fdiv : fl_scope.
Notation "- x" := (fneg x) : fl_scope.
Notation "0" := (Fin 0%Qc) : fl_scope.
Notation "1" := (Fin 1%Qc) : fl_scope.
Notation "2" := (Fin 2%Qc) : fl_scope.

(** Strict order on values, used to compare coupling weights. *)
Definition fltb (x y : np_float) : bool :=
  match x, y with
  | Fin a, Fin b => match (a ?= b)%Qc with Lt => true | _ => false end
  | Inf true, Fin _ | Fin _, Inf false | Inf true, Inf false => true
  | _, _ => false
  end.

Global Arguments fadd : simpl never.
Global Arguments fsub : simpl never.
Global Arguments fmul : simpl never.
Global Arguments fdiv : simpl never.
Global Arguments fneg : simpl never.

(** ** Exceptions *)

Inductive exn : Type :=
  | ZeroDivisionError
  | ValueError
  | LinAlgError.

Inductive result (A : Type) : Type :=
  | Ok (a : A)
  | Raise (e : exn).
Global Arguments Ok {A} a.
Global Arguments Raise {A} e.

Global Instance result_ret : MRet result := @Ok.
Global Instance result_bind : MBind result := λ A B f m,
  match m with
  | Ok a => f a
  | Raise e => Raise e
  end.

Definition is_ok {A} (r : result A) : bool :=
  match r with Ok _ => true | Raise _ => false end.

(** Division of two Python floats: [float(N)/(N-1.0)]. *)
Definition py_truediv (x y : np_float) : result np_float :=
  match y with
  | Fin b => match (b ?= 0)%Qc with
             | Eq => Raise ZeroDivisionError
             | _ => Ok (x / y)%F
             end
  | _ => Ok (x / y)%F
  end.

(** ** Arrays *)

Abbreviation vector := (list np_float).
Abbreviation matrix := (list (list np_float)).

(** [A.shape] of a two-dimensional array given by its rows. *)
Definition shape {A} (M : list (list A)) : nat * nat :=
  (length M, length (default [] (head M))).

Definition square {A} (M : list (list A)) : Prop :=
  Forall (λ row, length row = length M) M.

Definition symmetric (M : matrix) : Prop :=
  ∀ i j, i < length M → j < length M → (M !!! i) !!! j = (M !!! j) !!! i.

(** [np.sum(x)] of a one-dimensional array. *)
Definition np_sum (x : vector) : np_float := foldl fadd 0%F x.

(** [np.sum(A, axis=1)] *)
Definition np_sum_axis1 (A : matrix) : vector := np_sum <$> A.

(** [np.zeros(n)] and [np.zeros((n, m))] *)
Definition np_zeros (n : nat) : vector := replicate n 0%F.
Definition np_zeros2 (n m : nat) : matrix := replicate n (np_zeros m).

(** [np.diag(d)] of a one-dimensional array. *)
Definition np_diag (d : vector) : matrix :=
  imap (λ i x, <[i := x]> (np_zeros (length d))) d.

(** Broadcasting of one dimension of two operands. *)
Definition bdim (a b : nat) : option nat :=
  if decide (a = b) then Some a
  else if decide (a = 1) then Some b
  else if decide (b = 1) then Some a
  else None.

(** Entry [i, j] of [M] seen through broadcasting: a dimension of extent 1
    is read at index 0. *)
Definition bget (M : matrix) (i j : nat) : np_float :=
  let '(r, c) := shape M in
  (M !!! (if decide (r = 1) then 0 else i))
    !!! (if decide (c = 1) then 0 else j).

(** An element-wise binary operation on two-dimensional arrays. *)
Definition broadcast2 (op : np_float → np_float → np_float)
    (X Y : matrix) : result matrix :=
  match bdim (shape X).1 (shape Y).1, bdim (shape X).2 (shape Y).2 with
  | Some r, Some c =>
      Ok ((λ i, (λ j, op (bget X i j) (bget Y i j)) <$> seq 0 c) <$> seq 0 r)
  | _, _ => Raise ValueError
  end.

(** [mat[:n, :n] = src]: the source is broadcast to n x n, which fails when
    one of its extents is neither n nor 1. *)
Definition assign_block (n : nat) (mat src : matrix) : result matrix :=
  let '(r, c) := shape src in
  if decide ((r = n ∨ r = 1) ∧ (c = n ∨ c = 1)) then
    Ok (imap (λ i row,
          if decide (i < n)
          then imap (λ j x, if decide (j < n) then bget src i j else x) row
          else row) mat)
  else Raise ValueError.

(** [mat[n, :-1] = vals] *)
Definition assign_row_init (n : nat) (mat : matrix) (vals : vector) : matrix :=
  imap (λ i row,
    if decide (i = n)
    then imap (λ j x, if decide (j < length row - 1) then vals !!! j else x) row
    else row) mat.

(** [mat[:-1, n] = vals] *)
Definition assign_col_init (n : nat) (mat : matrix) (vals : vector) : matrix :=
  imap (λ i row,
    if decide (i < length mat - 1) then <[n := vals !!! i]> row else row) mat.

(** ** The augmenter *)

Definition matrix_with_void (mat0 : matrix) (p_void : np_float) : result matrix :=
  let N := (shape mat0).1 in
  let d_j := np_sum_axis1 mat0 in
  let lambda_j := (λ d, (p_void * d / (1 - p_void))%F) <$> d_j in
  (* init the new matrix and fill it with the previous elements *)
  let mat := np_zeros2 (N + 1) (N + 1) in
  mat ← assign_block N mat mat0;
  (* put the extra state *)
  let mat := assign_row_init N mat lambda_j in
  let mat := assign_col_init N mat lambda_j in
  Ok mat.

(** ** The eigen-solver's output *)

Record complex : Type := Cx { re : Qc; im : Qc }.

Global Instance complex_inhabited : Inhabited complex := populate (Cx 0 0).

(** numpy orders complex numbers by real part, then by imaginary part. *)
Definition cle (a b : complex) : bool :=
  match (re a ?= re b)%Qc with
  | Lt => true
  | Gt => false
  | Eq => match (im a ?= im b)%Qc with Gt => false | _ => true end
  end.

(** [np.argsort(w)], as the insertion sort numpy runs on short arrays:
    index [i] goes behind every index whose key is not greater, so equal
    keys keep their order. *)
Fixpoint insert_index (w : list complex) (i : nat) (s : list nat) : list nat :=
  match s with
  | [] => [i]
  | k :: s' =>
      if cle (w !!! k) (w !!! i) then k :: insert_index w i s' else i :: k :: s'
  end.

Definition np_argsort (w : list complex) : list nat :=
  foldl (λ s i, insert_index w i s) [] (seq 0 (length w)).

(** [M[:, i]] *)
Definition column {A} `{!Inhabited A} (M : list (list A)) (i : nat) : list A :=
  (λ row, row !!! i) <$> M.

(** [np.dot(v, d)] of a matrix and a one-dimensional array. *)
Definition np_dot (v : matrix) (d : vector) : vector :=
  (λ row, np_sum (zip_with fmul row d)) <$> v.

(** ** The solver *)

Section solver.

(** [scipy.linalg.eig]: for a square matrix, the eigenvalues and the matrix
    whose columns are the eigenvectors, both complex and finite; it may
    raise.  Indexing into its output is total below; the statements assume
    that it returned N eigenvalues and N x N entries, so that no index
    leaves its range. *)
Variable eig : matrix → result (list complex * list (list complex)).

(** The body of the accumulation loop of the unweighted variant. *)
Definition unweighted_term (E : np_float) (l dv : vector) (v : matrix)
    (i j : nat) : np_float :=
  (1 / l !!! i
   * (2 * E * fpow2 ((v !!! i) !!! j) - (v !!! i) !!! j * dv !!! i))%F.

(** The body of the accumulation loop of the weighted variant. *)
Definition weighted_term (E : np_float) (l dv : vector) (v : matrix)
    (i j : nat) : np_float :=
  let dvi := ((v !!! i) !!! j * dv !!! i)%F in
  (1 / l !!! i
   * (fpow2 (2 * E) * fpow2 ((v !!! i) !!! j)
      - 2 * (v !!! i) !!! j * 2 * E * dvi - fpow2 dvi))%F.

(** [for j in range(N): for i in range(1,N): T[j] += term(i,j)] *)
Definition accumulate (N : nat) (term : nat → nat → np_float)
    (T : vector) : vector :=
  foldl (λ T j,
    foldl (λ T i, <[j := (T !!! j + term i j)%F]> T) T (seq 1 (N - 1)))
    T (seq 0 N).

Definition GMFPT_theory (A : matrix) (weighted : bool) : result vector :=
  let N := (shape A).1 in
  let d := np_sum_axis1 A in
  let E := (np_sum d / 2)%F in
  L ← broadcast2 fsub (np_diag d) A;
  L_eigs ← eig L;
  let sortidx := np_argsort L_eigs.1 in
  let l := (λ i, Fin (re (L_eigs.1 !!! i))) <$> sortidx in
  let v := (λ i, (λ z, Fin (re z)) <$> column L_eigs.2 i) <$> sortidx in
  let T := np_zeros N in
  let dv := np_dot v d in
  if negb weighted then
    let T := accumulate N (unweighted_term E l dv v) T in
    c ← py_truediv (float_of_nat N) (float_of_nat N - 1)%F;
    Ok (fmul c <$> T)
  else
    let T := accumulate N (weighted_term E l dv v) T in
    Ok ((λ t, t / (2 * E))%F <$> T).

End solver.

(** ** The same two functions over a store of arrays

    numpy arrays are mutable objects handed around by reference.  Here the
    arrays live in a store, the functions take and return references, and
    every statement of the source that allocates or writes an array does so
    in the store. *)

Module Store.

Inductive ndarray : Type :=
  | Vec (x : vector)
  | Mat (M : matrix).

Global Instance ndarray_inhabited : Inhabited ndarray := populate (Vec []).

Definition as_vec (a : ndarray) : vector :=
  match a with Vec x => x | Mat _ => [] end.
Definition as_mat (a : ndarray) : matrix :=
  match a with Mat M => M | Vec _ => [] end.

Abbreviation loc := nat.
Abbreviation heap := (list ndarray).

(** A computation reads and writes the store and returns or raises; the
    store survives an exception. *)
Definition prog (A : Type) : Type := heap → result A * heap.

Global Instance prog_ret : MRet prog := λ A a h, (Ok a, h).
Global Instance prog_bind : MBind prog := λ A B f m h,
  match m h with
  | (Ok a, h') => f a h'
  | (Raise e, h') => (Raise e, h')
  end.

(** A new array gets the next free reference.  A reference handed to a
    function denotes a live array; [load] is total for simplicity. *)
Definition alloc (a : ndarray) : prog loc := λ h, (Ok (length h), h ++ [a]).
Definition load (r : loc) : prog ndarray := λ h, (Ok (h !!! r), h).
Definition store (r : loc) (a : ndarray) : prog () :=
  λ h, (Ok (), <[r := a]> h).
Definition lift {A} (x : result A) : prog A := λ h, (x, h).

Fixpoint for_each {B} (xs : list B) (body : B → prog ()) : prog () :=
  match xs with
  | [] => mret ()
  | x :: xs' => body x;; for_each xs' body
  end.

Definition matrix_with_void (mat0 : loc) (p_void : np_float) : prog loc :=
  a0 ← load mat0;
  let N := (shape (as_mat a0)).1 in
  d_j ← alloc (Vec (np_sum_axis1 (as_mat a0)));
  d ← load d_j;
  lambda_j ← alloc (Vec ((λ d, (p_void * d / (1 - p_void))%F) <$> as_vec d));
  mat ← alloc (Mat (np_zeros2 (N + 1) (N + 1)));
  (* mat[:N,:N] = mat0 *)
  m ← load mat;
  src ← load mat0;
  m' ← lift (assign_block N (as_mat m) (as_mat src));
  store mat (Mat m');;
  (* mat[N,:-1] = lambda_j *)
  m ← load mat;
  lam ← load lambda_j;
  store mat (Mat (assign_row_init N (as_mat m) (as_vec lam)));;
  (* mat[:-1,N] = lambda_j *)
  m ← load mat;
  lam ← load lambda_j;
  store mat (Mat (assign_col_init N (as_mat m) (as_vec lam)));;
  mret mat.

Section solver.

Variable eig : matrix → result (list complex * list (list complex)).

(** [T[j] += x] *)
Definition add_at (T : loc) (j : nat) (x : np_float) : prog () :=
  t ← load T;
  store T (Vec (<[j := (as_vec t !!! j + x)%F]> (as_vec t))).

Definition GMFPT_theory (A : loc) (weighted : bool) : prog loc :=
  a ← load A;
  let N := (shape (as_mat a)).1 in
  d ← alloc (Vec (np_sum_axis1 (as_mat a)));
  dd ← load d;
  let E := (np_sum (as_vec dd) / 2)%F in
  a ← load A;
  Lm ← lift (broadcast2 fsub (np_diag (as_vec dd)) (as_mat a));
  L ← alloc (Mat Lm);
  L_eigs ← lift (eig Lm);
  let sortidx := np_argsort L_eigs.1 in
  l ← alloc (Vec ((λ i, Fin (re (L_eigs.1 !!! i))) <$> sortidx));
  v ← alloc (Mat ((λ i, (λ z, Fin (re z)) <$> column L_eigs.2 i)
                    <$> sortidx));
  T ← alloc (Vec (np_zeros N));
  vv ← load v;
  dd ← load d;
  dv ← alloc (Vec (np_dot (as_mat vv) (as_vec dd)));
  (* l, v and dv are not written below: their contents are read once *)
  ll ← load l;
  dvv ← load dv;
  if negb weighted then
    for_each (seq 0 N) (λ j,
      for_each (seq 1 (N - 1)) (λ i,
        add_at T j
          (unweighted_term E (as_vec ll) (as_vec dvv) (as_mat vv) i j)));;
    c ← lift (py_truediv (float_of_nat N) (float_of_nat N - 1)%F);
    t ← load T;
    alloc (Vec (fmul c <$> as_vec t))
  else
    for_each (seq 0 N) (λ j,
      for_each (seq 1 (N - 1)) (λ i,
        add_at T j
          (weighted_term E (as_vec ll) (as_vec dvv) (as_mat vv) i j)));;
    t ← load T;
    alloc (Vec ((λ t, t / (2 * E))%F <$> as_vec t)).

End solver.

End Store.

(** * Definitions used by the statements *)

(** ** Finite matrices *)

Definition fmat (M : list (list Qc)) : matrix :=
  (λ row : list Qc, Fin <$> row) <$> M.
Definition real (x : Qc) : complex := Cx x 0.

Global Instance np_float_eq_dec : EqDecision np_float.
Proof. solve_decision. Defined.
Global Instance exn_eq_dec : EqDecision exn.
Proof. solve_decision. Defined.
Global Instance result_eq_dec {A} `{!EqDecision A} : EqDecision (result A).
Proof. solve_decision. Defined.
Global Instance complex_eq_dec : EqDecision complex.
Proof. solve_decision. Defined.

(** ** The augmenter *)

(** The coupling weights [lambda_j] of the source. *)
Definition void_coupling (mat0 : matrix) (p_void : np_float) : vector :=
  (λ d, (p_void * d / (1 - p_void))%F) <$> np_sum_axis1 mat0.

(** The matrix the augmenter builds from an N x N base. *)
Definition void_entry (mat0 : matrix) (p_void : np_float) (i j : nat) : np_float :=
  let N := length mat0 in
  if decide (i < N) then
    if decide (j < N) then (mat0 !!! i) !!! j
    else void_coupling mat0 p_void !!! i
  else
    if decide (j < N) then void_coupling mat0 p_void !!! j else 0%F.

(** ** Sums *)

(** The sum of a list of values, as a mathematical sum. *)
Definition fsum (x : vector) : np_float := foldr fadd 0%F x.

(** ** The formulas of the specification, over the rationals *)

Definition qsum (x : list Qc) : Qc := foldr Qcplus 0%Qc x.

(** The sum of [f i] for [i] from [a] to [a + n - 1]. *)
Definition big_sum (a n : nat) (f : nat → Qc) : Qc := qsum (f <$> seq a n).

Definition Qc_of_nat (n : nat) : Qc := Qc_of_Z (Z.of_nat n).

(** The eigenpairs after sorting by eigenvalue: [l] and [v] of the source. *)
Definition sorted_eigenvalues (w : list complex) : list Qc :=
  (λ i, re (w !!! i)) <$> np_argsort w.
Definition sorted_eigenvectors (w : list complex) (vr : list (list complex))
    : list (list Qc) :=
  (λ i, re <$> column vr i) <$> np_argsort w.

(** What [eig] returns for an N x N matrix: N eigenvalues, N x N entries. *)
Definition eig_shape (N : nat) (w : list complex) (vr : list (list complex))
    : Prop :=
  length w = N ∧ length vr = N ∧ Forall (λ row, length row = N) vr.

(** [L = np.diag(d) - A] *)
Definition laplacian (A : matrix) : result matrix :=
  broadcast2 fsub (np_diag (np_sum_axis1 A)) A.

Section formulas.

Variables (N : nat) (A : list (list Qc)) (l : list Qc) (v : list (list Qc)).

Definition degree (k : nat) : Qc := qsum (A !!! k).
Definition total_weight : Qc := (big_sum 0 N degree / 2)%Qc.
Definition proj_degree (i : nat) : Qc :=
  big_sum 0 N (λ k, (v !!! i) !!! k * degree k)%Qc.

(** Unweighted variant: sum over the retained modes of
    (1/λ_i) (2E v[i,j]² − v[i,j] dv[i]), scaled by N/(N−1). *)
Definition unweighted_formula (j : nat) : Qc :=
  let E := total_weight in
  (Qc_of_nat N / (Qc_of_nat N - 1)
   * big_sum 1 (N - 1) (λ i,
       let vij := (v !!! i) !!! j in
       1 / l !!! i * (2 * E * (vij * vij) - vij * proj_degree i)))%Qc.

(** Weighted variant as the specification words it: sum of
    (1/λ_i) ((2E)² v[i,j]² − 4E v[i,j] dv[i] − dv[i]²), divided by 2E. *)
Definition weighted_formula (j : nat) : Qc :=
  let E := total_weight in
  (big_sum 1 (N - 1) (λ i,
     let vij := (v !!! i) !!! j in
     1 / l !!! i * ((2 * E) * (2 * E) * (vij * vij)
                    - 2 * (2 * E) * vij * proj_degree i
                    - proj_degree i * proj_degree i))
   / (2 * E))%Qc.


End formulas.

(** ** Rescaling the weights *)

(** The matrix [c * A] and the eigenvalues [c * w]. *)
Definition qscale (c : Qc) (Aq : list (list Qc)) : list (list Qc) :=
  (λ row : list Qc, Qcmult c <$> row) <$> Aq.
Definition cscale (c : Qc) (z : complex) : complex :=
  Cx (c * re z) (c * im z).

(** ** Example data *)

(** A connected weighted graph on four nodes with integer weights, and its
    Laplacian. *)
Definition A0q : list (list Qc) :=
  (λ row : list Z, Qc_of_Z <$> row) <$>
    [[0; 0; 3; 2]; [0; 0; 6; 3]; [3; 6; 0; 4]; [2; 3; 4; 0]]%Z.
Definition A0 : matrix := fmat A0q.
Definition L0q : list (list Qc) :=
  (λ row : list Z, Qc_of_Z <$> row) <$>
    [[5; 0; -3; -2]; [0; 9; -6; -3]; [-3; -6; 13; -4]; [-2; -3; -4; 9]]%Z.

(** The eigen-decomposition of [L0q]: eigenvalues 18, 0, 6, 12, in the order
    a solver may return them, and orthonormal eigenvectors in the columns. *)
Definition w0 : list complex := real <$> [rat 18 1; 0%Qc; rat 6 1; rat 12 1].
Definition vr0 : list (list complex) :=
  (λ row : list Qc, real <$> row) <$>
    [[rat 1 6; rat 1 2; rat 5 6; rat 1 6];
     [rat 3 6; rat 1 2; rat (-3) 6; rat 3 6];
     [rat (-5) 6; rat 1 2; rat (-1) 6; rat 1 6];
     [rat 1 6; rat 1 2; rat (-1) 6; rat (-5) 6]].

(** An eigenvector is determined up to its sign only. *)
Definition flip (s : bool) (z : complex) : complex :=
  if s then Cx (- re z) (- im z) else z.

(** An exact eigen-solver for the Laplacians of the graphs c·A0, c > 0,
    recognized by their first entry 5c.  [signs] tells which eigenvectors
    it returns with the opposite sign. *)
Definition eig_A0 (signs : list bool) (L : matrix)
    : result (list complex * list (list complex)) :=
  match L with
  | (Fin x :: _) :: _ =>
      Ok (cscale (x / rat 5 1) <$> w0,
          (λ row : list complex,
             imap (λ k z, flip (default false (signs !! k)) z) row) <$> vr0)
  | _ => Raise LinAlgError
  end.

Definition no_flip : list bool := [false; false; false; false].

(** [L x] for a matrix and a vector of rationals. *)
Definition matvec (L : list (list Qc)) (x : list Qc) : list Qc :=
  (λ row, qsum (zip_with Qcmult row x)) <$> L.

(** [w, vr] is an eigen-decomposition of [L]: real eigenvalues, and columns
    of [vr] that are orthonormal eigenvectors. *)
Definition eigen_check (L : list (list Qc)) (w : list complex)
    (vr : list (list complex)) : bool :=
  forallb (λ i,
    let x := re <$> column vr i in
    bool_decide (matvec L x = Qcmult (re (w !!! i)) <$> x)
    && bool_decide (im (w !!! i) = 0%Qc)
    && forallb (λ k,
         bool_decide (qsum (zip_with Qcmult x (re <$> column vr k))
                      = if decide (i = k) then 1%Qc else 0%Qc))
         (seq 0 (length w)))
    (seq 0 (length w)).

(** A disconnected graph, two disjoint edges, with its Laplacian and an
    eigen-decomposition: the eigenvalue 0 is double. *)
Definition B0q : list (list Qc) :=
  (λ row : list Z, Qc_of_Z <$> row) <$>
    [[0; 1; 0; 0]; [1; 0; 0; 0]; [0; 0; 0; 1]; [0; 0; 1; 0]]%Z.
Definition LBq : list (list Qc) :=
  (λ row : list Z, Qc_of_Z <$> row) <$>
    [[1; -1; 0; 0]; [-1; 1; 0; 0]; [0; 0; 1; -1]; [0; 0; -1; 1]]%Z.
Definition wB : list complex := real <$> [rat 2 1; 0%Qc; rat 2 1; 0%Qc].
Definition vrB : list (list complex) :=
  (λ row : list Qc, real <$> row) <$>
    [[rat 1 2; rat 1 2; rat 1 2; rat 1 2];
     [rat (-1) 2; rat 1 2; rat (-1) 2; rat 1 2];
     [rat 1 2; rat 1 2; rat (-1) 2; rat (-1) 2];
     [rat (-1) 2; rat 1 2; rat 1 2; rat (-1) 2]].
Definition eig_B0 (L : matrix) : result (list complex * list (list complex)) :=
  Ok (wB, vrB).

(** A graph with an isolated node. *)
Definition C0 : matrix :=
  fmat ((λ row : list Z, Qc_of_Z <$> row) <$>
          [[0; 1; 0]; [1; 0; 0]; [0; 0; 0]]%Z).

(** A 2 x 2 array that is no graph at all: asymmetric, a negative weight,
    a nan and an inf. *)
Definition bad_matrix : matrix := [[Fin (rat (-1) 1); NaN]; [Inf false; 0%F]].

(** A 2 x 1 array. *)
Definition column_matrix : matrix := [[1%F]; [2%F]].

(** * The matrix generators of the notebook *)

(** [m[i, start:] = vals] and [m[i, :stop] = vals].  In [uniform_decay] the
    two sides of each assignment have the same length by construction. *)
Definition assign_row_from (i start : nat) (m : matrix) (vals : vector) : matrix :=
  alter (imap (λ j x, if decide (start ≤ j) then vals !!! (j - start) else x)) i m.
Definition assign_row_upto (i stop : nat) (m : matrix) (vals : vector) : matrix :=
  alter (imap (λ j x, if decide (j < stop) then vals !!! j else x)) i m.

(** [mat[s:e, s:e] += src].  The slice is clipped to the array; the source
    is broadcast to the shape of the slice, which fails when one of its
    extents is neither that of the slice nor 1. *)
Definition iadd_block (s e : nat) (mat src : matrix) : result matrix :=
  let '(R, C) := shape mat in
  let '(r, c) := shape src in
  if decide ((r = e `min` R - s `min` R ∨ r = 1)
             ∧ (c = e `min` C - s `min` C ∨ c = 1)) then
    Ok (imap (λ i row,
          if decide (s ≤ i < e)
          then imap (λ j x,
                 if decide (s ≤ j < e)
                 then (x + bget src (i - s) (j - s))%F else x) row
          else row) mat)
  else Raise ValueError.

(** [m[i,j] = x] *)
Definition set_entry (i j : nat) (x : np_float) (m : matrix) : matrix :=
  alter (<[j := x]>) i m.

(** How often the pair (a, b) was drawn. *)
Fixpoint hits (coords : list (nat * nat)) (a b : nat) : nat :=
  match coords with
  | [] => 0
  | p :: coords' => (if decide (p = (a, b)) then 1 else 0) + hits coords' a b
  end.

Section generators.

(** [x**alpha] of numpy, for floats. *)
Variable np_power : np_float → np_float → np_float.

(** [np.random.randint(low, high, size=(n,2))]: the rows drawn.  The state
    of the generator is not modelled; a call is one draw. *)
Variable randint : nat → nat → nat → list (nat * nat).

(** [n] is a size, [alpha] a float as in every call of the notebook. *)
Definition uniform_decay (n : nat) (alpha : np_float) : matrix :=
  (* init matrix *)
  let m := np_zeros2 n n in
  (* init p(s) function *)
  let ps := (λ k, np_power (float_of_nat k) alpha) <$> seq 1 (n - 1) in
  let ps := (λ x, (x / np_sum ps)%F) <$> ps in
  foldl (λ m i,
    let m := assign_row_from i (i + 1) m (take (n - i - 1) ps) in
    assign_row_upto i i m (reverse (take i ps)))
    m (seq 0 n).

(** The bounds are natural numbers here; with [tad_end < tad_start] the
    size [n] is negative and [np.zeros] raises.  The matrix returned is the
    content of [mat] after the call: the source updates [mat] in place and
    returns it. *)
Definition add_tad (mat : matrix) (tad_start tad_end : nat)
    (tad_alpha : np_float) : result matrix :=
  if decide (tad_end < tad_start) then Raise ValueError
  else
    let n := tad_end - tad_start in
    iadd_block tad_start tad_end mat (uniform_decay n tad_alpha).

(** The source returns nothing and updates [M] in place: the result is the
    content of [M] after the call, [None] when an index is out of bounds
    (IndexError). *)
Definition add_noise (M : matrix) (n_noise : nat) : option matrix :=
  let N := (shape M).1 in
  let coords := randint 0 N n_noise in
  foldl (λ acc '(i, j),
    M ← acc;
    row ← M !! i;
    x ← row !! j;
    Some (<[i := <[j := (x + 1)%F]> row]> M))
    (Some M) coords.

End generators.

(** The chain of the first example, for any number of sites. *)
Definition chain0 (N : nat) : matrix :=
  foldl (λ m i, set_entry (i - 1) i 1%F (set_entry i (i - 1) 1%F m))
    (np_zeros2 N N) (seq 1 (N - 1)).

Definition chain (N : nat) (p_void : np_float) : result matrix :=
  matrix_with_void (chain0 N) p_void.

(** The adjacency matrix of the path on [N] sites, and the number of
    neighbours of site [i] on it. *)
Definition path_adjacency (N : nat) : list (list Qc) :=
  (λ a, (λ b, if decide (a + 1 = b ∨ b + 1 = a) then 1%Qc else 0%Qc)
          <$> seq 0 N) <$> seq 0 N.
Definition path_neighbours (N i : nat) : Qc :=
  ((if decide (1 ≤ i ∧ i - 1 < N)%nat then 1 else 0)
   + (if decide (i + 1 < N)%nat then 1 else 0))%Qc.

(** [add_tad] over the store of arrays: it writes to the array it is given
    and returns that same reference. *)
Module InPlace.

Section generators.

Variable np_power : np_float → np_float → np_float.

Definition add_tad (mat : Store.loc) (tad_start tad_end : nat)
    (tad_alpha : np_float) : Store.prog Store.loc :=
  if decide (tad_end < tad_start) then Store.lift (Raise ValueError)
  else
    let n := tad_end - tad_start in
    u ← Store.alloc (Store.Mat (uniform_decay np_power n tad_alpha));
    (* mat[tad_start:tad_end, tad_start:tad_end] += u *)
    m ← Store.load mat;
    src ← Store.load u;
    m' ← Store.lift (iadd_block tad_start tad_end (Store.as_mat m)
                       (Store.as_mat src));
    Store.store mat (Store.Mat m');;
    mret mat.

End generators.

End InPlace.

(** A power function that is exact at the exponents -1, 0 and 1. *)
Definition power_example (x alpha : np_float) : np_float :=
  match x, alpha with
  | Fin a, Fin e =>
      if decide (e = rat (-1) 1) then (1 / Fin a)%F
      else if decide (e = 0%Qc) then 1%F
      else if decide (e = 1%Qc) then Fin a
      else NaN
  | _, _ => NaN
  end.

(** The eigenvectors of [vr] with the signs of some columns reversed. *)
Definition flip_columns (signs : list bool) (vr : list (list complex))
    : list (list complex) :=
  (λ row : list complex,
     imap (λ k z, flip (default false (signs !! k)) z) row) <$> vr.

(** The factor by which reversing the sign of an eigenvector multiplies its
    entries. *)
Definition sg (s : bool) : Qc := if s then (- 1)%Qc else 1%Qc.

(** Three draws of pairs of indices, for the examples, and three draws in
    which each pair comes as often as its mirror image. *)
Definition draws_example (low high size : nat) : list (nat * nat) :=
  take size [(0, 1); (0, 1); (2, 3)].
Definition draws_balanced (low high size : nat) : list (nat * nat) :=
  take size [(0, 1); (1, 0); (2, 2)].

(** The triangle, the complete graph on four nodes with its Laplacian, and
    an eigen-decomposition of that Laplacian: eigenvalues 4, 0, 4, 4 with
    the eigenvectors of [vrB]. *)
Definition K3q : list (list Qc) :=
  (λ row : list Z, Qc_of_Z <$> row) <$> [[0; 1; 1]; [1; 0; 1]; [1; 1; 0]]%Z.
Definition K4q : list (list Qc) :=
  (λ row : list Z, Qc_of_Z <$> row) <$>
    [[0; 1; 1; 1]; [1; 0; 1; 1]; [1; 1; 0; 1]; [1; 1; 1; 0]]%Z.
Definition LK4q : list (list Qc) :=
  (λ row : list Z, Qc_of_Z <$> row) <$>
    [[3; -1; -1; -1]; [-1; 3; -1; -1]; [-1; -1; 3; -1]; [-1; -1; -1; 3]]%Z.
Definition wK4 : list complex := real <$> [rat 4 1; 0%Qc; rat 4 1; rat 4 1].
Definition eig_K4 (L : matrix) : result (list complex * list (list complex)) :=
  Ok (wK4, vrB).

(** A 2 x 3 array. *)
Definition wide_matrix : matrix := [[0%F; 1%F; 0%F]; [1%F; 0%F; 0%F]].

(** The normalized profile [ps] of [uniform_decay]. *)
Definition decay_profile (np_power : np_float → np_float → np_float)
    (n : nat) (alpha : np_float) : vector :=
  let ps := (λ k, np_power (float_of_nat k) alpha) <$> seq 1 (n - 1) in
  (λ x, (x / np_sum ps)%F) <$> ps.

(** * Rounding *)

(** The arithmetic of [np_float] above is that of the rationals: each
    operation returns the exact result.  Float64 rounds the exact result
    to a representable value, or to an infinity when it is too large.
    Where a statement is about the order of two computed values, rather
    than about the expression that is evaluated, it is made over arithmetic
    that rounds after each operation, for every rounding function that is
    monotone and leaves 0 and 1 as they are: float64's rounding to nearest
    is one, and so is the exact arithmetic, which does not round. *)

(** [x <= y] on floats; false when a nan is compared. *)
Definition fleb (x y : np_float) : bool :=
  match x, y with
  | Fin a, Fin b => match (a ?= b)%Qc with Gt => false | _ => true end
  | Inf true, Fin _ | Fin _, Inf false => true
  | Inf true, Inf _ | Inf false, Inf false => true
  | _, _ => false
  end.

Record rounding (rnd : Qc → np_float) : Prop := {
  rounding_monotone : ∀ x y, (x ≤ y)%Qc → fleb (rnd x) (rnd y) = true;
  rounding_0 : rnd 0%Qc = 0%F;
  rounding_1 : rnd 1%Qc = 1%F;
}.

Module Rounded.

Section arithmetic.

Variable rnd : Qc → np_float.

(** Infinities and nan are kept; a finite result is rounded. *)
Definition round (x : np_float) : np_float :=
  match x with Fin q => rnd q | _ => x end.

Definition add (x y : np_float) : np_float := round (x + y)%F.
Definition sub (x y : np_float) : np_float := round (x - y)%F.
Definition mul (x y : np_float) : np_float := round (x * y)%F.
Definition div (x y : np_float) : np_float := round (x / y)%F.

Definition np_sum (x : vector) : np_float := foldl add 0%F x.

Definition matrix_with_void (mat0 : matrix) (p_void : np_float) : result matrix :=
  let N := (shape mat0).1 in
  let d_j := np_sum <$> mat0 in
  let lambda_j := (λ d, div (mul p_void d) (sub 1%F p_void)) <$> d_j in
  (* init the new matrix and fill it with the previous elements *)
  let mat := np_zeros2 (N + 1) (N + 1) in
  mat ← assign_block N mat mat0;
  (* put the extra state *)
  let mat := assign_row_init N mat lambda_j in
  let mat := assign_col_init N mat lambda_j in
  Ok mat.

End arithmetic.

End Rounded.

(** A rounding function for the examples: down to a multiple of 1/16. *)
Definition round_grid (x : Qc) : np_float :=
  Fin (Q2Qc (Qfloor (x * rat 16 1)%Qc # 16)).

(** * Properties *)

(** ** Shapes and indexing *)

Lemma square_shape {A} (M : list (list A)) :
  square M → shape M = (length M, length M).
Proof.
  unfold square, shape. destruct M as [|row M]; [done|].
  intros H. apply Forall_cons_1 in H as [H _]. simpl in *. by rewrite H.
Qed.

Lemma bget_in_range (M : matrix) i j :
  i < (shape M).1 → j < (shape M).2 → bget M i j = (M !!! i) !!! j.
Proof.
  unfold bget. destruct (shape M) as [r c]. simpl. intros Hi Hj.
  repeat case_decide; subst; repeat f_equal; lia.
Qed.

Lemma imap_row (f : nat → vector → vector) (M : matrix) i :
  i < length M → imap f M !!! i = f i (M !!! i).
Proof. apply list_lookup_total_imap. Qed.

Lemma imap_entry (f : nat → np_float → np_float) (x : vector) i :
  i < length x → imap f x !!! i = f i (x !!! i).
Proof. apply list_lookup_total_imap. Qed.

Lemma np_zeros2_lookup n m i j :
  i < n → j < m → (np_zeros2 n m !!! i) !!! j = 0%F.
Proof.
  intros. unfold np_zeros2, np_zeros.
  by rewrite !lookup_total_replicate_2.
Qed.

Lemma assign_block_length n mat src mat' :
  assign_block n mat src = Ok mat' → length mat' = length mat.
Proof.
  unfold assign_block. destruct (shape src). case_decide; [|done].
  intros [= <-]. by rewrite length_imap.
Qed.

Lemma assign_row_init_length n mat vals :
  length (assign_row_init n mat vals) = length mat.
Proof. unfold assign_row_init. by rewrite length_imap. Qed.

Lemma assign_col_init_length n mat vals :
  length (assign_col_init n mat vals) = length mat.
Proof. unfold assign_col_init. by rewrite length_imap. Qed.

(** ** The augmenter, entry by entry *)


Lemma void_coupling_lookup mat0 p_void i :
  i < length mat0 →
  void_coupling mat0 p_void !!! i
  = (p_void * np_sum (mat0 !!! i) / (1 - p_void))%F.
Proof.
  intros Hi. unfold void_coupling, np_sum_axis1.
  rewrite !list_lookup_total_alt, !list_lookup_fmap.
  by destruct (lookup_lt_is_Some_2 mat0 i Hi) as [row ->].
Qed.


Lemma assign_block_lookup n mat src mat' i j :
  assign_block n mat src = Ok mat' →
  i < length mat → j < length (mat !!! i) →
  (mat' !!! i) !!! j
  = if decide (i < n ∧ j < n) then bget src i j else (mat !!! i) !!! j.
Proof.
  unfold assign_block. destruct (shape src). case_decide; [|done].
  intros [= <-] Hi Hj.
  rewrite imap_row by done.
  destruct (decide (i < n)).
  - rewrite imap_entry by done.
    destruct (decide (j < n)).
    + by rewrite decide_True.
    + rewrite decide_False; [done|lia].
  - rewrite decide_False; [done|lia].
Qed.

Lemma assign_block_row_length n mat src mat' i :
  assign_block n mat src = Ok mat' →
  i < length mat → length (mat' !!! i) = length (mat !!! i).
Proof.
  unfold assign_block. destruct (shape src). case_decide; [|done].
  intros [= <-] Hi. rewrite imap_row by done.
  case_decide; by rewrite ?length_imap.
Qed.

Lemma assign_row_init_lookup n mat vals i j :
  i < length mat → j < length (mat !!! i) →
  (assign_row_init n mat vals !!! i) !!! j
  = if decide (i = n ∧ j < length (mat !!! i) - 1) then vals !!! j
    else (mat !!! i) !!! j.
Proof.
  intros Hi Hj. unfold assign_row_init.
  rewrite imap_row by done.
  destruct (decide (i = n)).
  - rewrite imap_entry by done.
    destruct (decide (j < length (mat !!! i) - 1)).
    + by rewrite decide_True.
    + rewrite decide_False; [done|lia].
  - rewrite decide_False; [done|lia].
Qed.

Lemma assign_row_init_row_length n mat vals i :
  i < length mat →
  length (assign_row_init n mat vals !!! i) = length (mat !!! i).
Proof.
  intros Hi. unfold assign_row_init. rewrite imap_row by done.
  case_decide; by rewrite ?length_imap.
Qed.

Lemma assign_col_init_lookup n mat vals i j :
  i < length mat → n < length (mat !!! i) →
  (assign_col_init n mat vals !!! i) !!! j
  = if decide (i < length mat - 1 ∧ j = n) then vals !!! i
    else (mat !!! i) !!! j.
Proof.
  intros Hi Hn. unfold assign_col_init.
  rewrite imap_row by done.
  destruct (decide (i < length mat - 1)).
  - destruct (decide (j = n)) as [->|].
    + rewrite list_lookup_total_insert_eq by done. by rewrite decide_True.
    + rewrite list_lookup_total_insert_ne by done.
      rewrite decide_False; [done|lia].
  - rewrite decide_False; [done|lia].
Qed.

Lemma assign_col_init_row_length n mat vals i :
  i < length mat →
  length (assign_col_init n mat vals !!! i) = length (mat !!! i).
Proof.
  intros Hi. unfold assign_col_init. rewrite imap_row by done.
  case_decide; by rewrite ?length_insert.
Qed.

Lemma np_zeros2_row_length n m i : i < n → length (np_zeros2 n m !!! i) = m.
Proof.
  intros. unfold np_zeros2, np_zeros.
  rewrite lookup_total_replicate_2 by done. by rewrite length_replicate.
Qed.

Lemma np_zeros2_length n m : length (np_zeros2 n m) = n.
Proof. unfold np_zeros2. by rewrite length_replicate. Qed.

Lemma assign_block_square n mat src :
  square src → length src = n → is_ok (assign_block n mat src) = true.
Proof.
  intros Hsq <-. unfold assign_block. rewrite (square_shape _ Hsq).
  rewrite decide_True; [done|]. split; by left.
Qed.

Lemma matrix_with_void_square mat0 p_void :
  square mat0 →
  ∃ mat, matrix_with_void mat0 p_void = Ok mat
    ∧ length mat = length mat0 + 1
    ∧ (∀ i, i < length mat0 + 1 → length (mat !!! i) = length mat0 + 1)
    ∧ (∀ i j, i < length mat0 + 1 → j < length mat0 + 1 →
         (mat !!! i) !!! j = void_entry mat0 p_void i j).
Proof.
  intros Hsq. unfold matrix_with_void.
  fold (void_coupling mat0 p_void).
  pose proof (square_shape _ Hsq) as Hsh. rewrite Hsh. cbn [fst].
  set (N := length mat0) in *.
  pose proof (assign_block_square N (np_zeros2 (N + 1) (N + 1)) mat0 Hsq eq_refl) as Hok.
  destruct (assign_block N (np_zeros2 (N + 1) (N + 1)) mat0) as [m1|] eqn:Hm1; [|done].
  cbn [mbind result_bind].
  pose proof (assign_block_length _ _ _ _ Hm1) as Hl1.
  rewrite np_zeros2_length in Hl1.
  assert (Hr1 : ∀ i, i < N + 1 → length (m1 !!! i) = N + 1).
  { intros i Hi. rewrite (assign_block_row_length _ _ _ _ _ Hm1)
      by (by rewrite np_zeros2_length).
    by apply np_zeros2_row_length. }
  eexists. split; [done|]. split; [|split].
  - by rewrite assign_col_init_length, assign_row_init_length.
  - intros i Hi.
    rewrite assign_col_init_row_length by (by rewrite assign_row_init_length, Hl1).
    rewrite assign_row_init_row_length by (by rewrite Hl1). auto.
  - intros i j Hi Hj.
    rewrite assign_col_init_lookup; rewrite ?assign_row_init_length, ?Hl1; [|done|].
    2:{ rewrite assign_row_init_row_length by (by rewrite Hl1). rewrite Hr1; lia. }
    unfold void_entry. fold N.
    destruct (decide (i < N)) as [HiN|HiN].
    + destruct (decide (j < N)) as [HjN|HjN].
      * rewrite decide_False by lia.
        rewrite assign_row_init_lookup by (rewrite ?Hr1, ?Hl1; lia).
        rewrite decide_False by lia.
        rewrite (assign_block_lookup _ _ _ _ _ _ Hm1); rewrite ?np_zeros2_length, ?np_zeros2_row_length; [|lia..].
        rewrite decide_True by done.
        apply bget_in_range; rewrite Hsh; simpl; lia.
      * rewrite decide_True; [done|lia].
    + assert (i = N) as -> by lia.
      rewrite decide_False by lia.
      rewrite assign_row_init_lookup by (rewrite ?Hr1, ?Hl1; lia).
      rewrite Hr1 by lia.
      destruct (decide (j < N)) as [HjN|HjN].
      * rewrite decide_True; [done|lia].
      * rewrite decide_False by lia.
        rewrite (assign_block_lookup _ _ _ _ _ _ Hm1); rewrite ?np_zeros2_length, ?np_zeros2_row_length; [|lia..].
        rewrite decide_False by lia.
        apply np_zeros2_lookup; lia.
Qed.

(** ** Finite arithmetic *)

Lemma Qccompare_refl (a : Qc) : (a ?= a)%Qc = Eq.
Proof. by apply Qceq_alt. Qed.

Lemma Qccompare_neq (a b : Qc) : a ≠ b → (a ?= b)%Qc ≠ Eq.
Proof. intros H Hc. by apply H, Qceq_alt. Qed.

Lemma fdiv_fin (a b : Qc) : b ≠ 0%Qc → (Fin a / Fin b)%F = Fin (a / b)%Qc.
Proof.
  intros Hb. unfold fdiv.
  pose proof (Qccompare_neq _ _ Hb). by destruct (b ?= 0)%Qc.
Qed.

Lemma fdiv_zero_not_finite (x : np_float) : is_finite (x / 0)%F = false.
Proof.
  destruct x as [a|s|]; unfold fdiv; [|done..].
  rewrite Qccompare_refl. by destruct (a ?= 0)%Qc.
Qed.

Lemma fltb_fin (a b : Qc) : fltb (Fin a) (Fin b) = true ↔ (a < b)%Qc.
Proof.
  unfold fltb. rewrite Qclt_alt. destruct (a ?= b)%Qc; naive_solver.
Qed.

(** ** The augmenter: claims *)

(** The layout of the augmented matrix. *)
Lemma matrix_with_void_layout (mat0 : matrix) (p_void : np_float) :
  square mat0 →
  let N := length mat0 in
  ∃ mat, matrix_with_void mat0 p_void = Ok mat
    ∧ length mat = N + 1 ∧ square mat
    ∧ (∀ i j, i < N → j < N → (mat !!! i) !!! j = (mat0 !!! i) !!! j)
    ∧ (∀ i, i < N →
         (mat !!! i) !!! N = (p_void * np_sum (mat0 !!! i) / (1 - p_void))%F
         ∧ (mat !!! N) !!! i = (p_void * np_sum (mat0 !!! i) / (1 - p_void))%F)
    ∧ (mat !!! N) !!! N = 0%F.
Proof.
  intros Hsq N.
  destruct (matrix_with_void_square mat0 p_void Hsq)
    as (mat & Hmat & Hlen & Hrows & Hent).
  fold N in Hlen, Hrows, Hent.
  exists mat. split; [done|]. split; [done|]. split; [|split; [|split]].
  - unfold square. rewrite Forall_lookup. intros i row Hrow.
    pose proof (lookup_lt_Some _ _ _ Hrow) as Hi. rewrite Hlen in Hi |- *.
    rewrite <- (Hrows i Hi). f_equal. symmetry.
    by apply list_lookup_total_correct.
  - intros i j Hi Hj. rewrite Hent by lia. unfold void_entry. fold N.
    by rewrite !decide_True by done.
  - intros i Hi. rewrite !Hent by lia. unfold void_entry. fold N.
    rewrite (decide_True (P := i < N)) by done.
    rewrite !(decide_False (P := N < N)) by lia.
    rewrite (decide_True (P := i < N)) by done.
    by rewrite void_coupling_lookup.
  - rewrite Hent by lia. unfold void_entry. fold N.
    by rewrite !decide_False by lia.
Qed.

(** C2.  For a square base of size N the augmenter returns an
    (N+1) x (N+1) matrix: the top-left block is the base, the entries
    [i,N] and [N,i] are [p_void * degree(i) / (1 - p_void)] with the degree
    the row sum of the base, and the corner [N,N] is 0.  This holds for
    every [p_void], in particular for those in (0,1). *)
Theorem matrix_with_void_entries (mat0 : matrix) (p_void : np_float) :
  square mat0 →
  let N := length mat0 in
  ∃ mat, matrix_with_void mat0 p_void = Ok mat
    ∧ length mat = N + 1 ∧ square mat
    ∧ (∀ i j, i < N → j < N → (mat !!! i) !!! j = (mat0 !!! i) !!! j)
    ∧ (∀ i, i < N →
         (mat !!! i) !!! N = (p_void * np_sum (mat0 !!! i) / (1 - p_void))%F
         ∧ (mat !!! N) !!! i = (p_void * np_sum (mat0 !!! i) / (1 - p_void))%F)
    ∧ (mat !!! N) !!! N = 0%F.
Proof. apply matrix_with_void_layout. Qed.


(** C7.  For a square symmetric base the augmented matrix is symmetric and
    its top-left N x N block is the base, entry for entry. *)
Theorem matrix_with_void_symmetric (mat0 : matrix) (p_void : np_float) :
  square mat0 → symmetric mat0 →
  ∃ mat, matrix_with_void mat0 p_void = Ok mat
    ∧ symmetric mat
    ∧ ∀ i j, i < length mat0 → j < length mat0 →
        (mat !!! i) !!! j = (mat0 !!! i) !!! j.
Proof.
  intros Hsq Hsym.
  destruct (matrix_with_void_square mat0 p_void Hsq)
    as (mat & Hmat & Hlen & Hrows & Hent).
  exists mat. split; [done|]. split.
  - intros i j Hi Hj. rewrite Hlen in Hi, Hj.
    rewrite !Hent by done. unfold void_entry.
    repeat case_decide; try done; try lia. by apply Hsym.
  - intros i j Hi Hj. rewrite Hent by lia. unfold void_entry.
    by rewrite !decide_True by done.
Qed.

(** C4, as the code has it.  The augmenter validates nothing.  Whatever
    [p_void] is and whatever the entries of the base are, it returns a
    matrix exactly when the base has as many columns as rows, or one column
    (which numpy broadcasts); otherwise the block assignment raises numpy's
    ValueError. *)
Theorem matrix_with_void_no_validation (mat0 : matrix) (p_void : np_float) :
  is_ok (matrix_with_void mat0 p_void)
  = bool_decide ((shape mat0).2 = (shape mat0).1 ∨ (shape mat0).2 = 1)
  ∧ (matrix_with_void mat0 p_void = Raise ValueError
     ∨ is_ok (matrix_with_void mat0 p_void) = true).
Proof.
  unfold matrix_with_void, assign_block.
  destruct (shape mat0) as [r c]. simpl.
  case_decide as Hd.
  - split; [|by right]. simpl. symmetry. apply bool_decide_eq_true.
    destruct Hd as [_ Hd]. done.
  - split; [|by left]. simpl. symmetry. apply bool_decide_eq_false.
    intros Hc. apply Hd. split; [by left|done].
Qed.

(** ** The augmenter with rounding *)

Lemma fleb_fin (a b : Qc) : fleb (Fin a) (Fin b) = true ↔ (a ≤ b)%Qc.
Proof.
  unfold fleb. rewrite Qcle_alt. destruct (a ?= b)%Qc; naive_solver.
Qed.

Lemma fleb_inf (x : np_float) : fleb x x = true → fleb x (Inf false) = true.
Proof. by destruct x as [a|[]|]. Qed.

Lemma fleb_lower (a : Qc) (x : np_float) :
  fleb (Fin a) x = true → (∃ b, x = Fin b ∧ (a ≤ b)%Qc) ∨ x = Inf false.
Proof.
  destruct x as [b|[]|]; try done; [|by right].
  intros H%fleb_fin. left. by exists b.
Qed.

Lemma fleb_upper (x : np_float) (b : Qc) :
  fleb x (Fin b) = true → (∃ a, x = Fin a ∧ (a ≤ b)%Qc) ∨ x = Inf true.
Proof.
  destruct x as [a|[]|]; try done; [|by right].
  intros H%fleb_fin. left. by exists a.
Qed.

Lemma Qcmult_nonneg (a b : Qc) : (0 ≤ a)%Qc → (0 ≤ b)%Qc → (0 ≤ a * b)%Qc.
Proof.
  intros Ha Hb. rewrite <- (Qcmult_0_l b). by apply Qcmult_le_compat_r.
Qed.

Lemma Qcinv_le (y1 y2 : Qc) : (0 < y2)%Qc → (y2 ≤ y1)%Qc → (/ y1 ≤ / y2)%Qc.
Proof.
  intros H2 H12.
  assert (H1 : (0 < y1)%Qc) by (by eapply Qclt_le_trans).
  assert (Hn1 : y1 ≠ 0%Qc) by (symmetry; by apply Qclt_not_eq).
  assert (Hn2 : y2 ≠ 0%Qc) by (symmetry; by apply Qclt_not_eq).
  rewrite Qcle_minus_iff.
  replace (/ y2 + - / y1)%Qc with ((y1 + - y2) * (/ y1 * / y2))%Qc
    by (field; done).
  apply Qcmult_nonneg.
  - by rewrite <- Qcle_minus_iff.
  - apply Qclt_le_weak, Qcmult_pos_pos; by apply Qcinv_pos.
Qed.

Lemma quotient_le (x1 x2 y1 y2 : Qc) :
  (0 ≤ x1)%Qc → (x1 ≤ x2)%Qc → (0 < y2)%Qc → (y2 ≤ y1)%Qc →
  (x1 / y1 ≤ x2 / y2)%Qc.
Proof.
  intros H0 Hx Hy2 Hy.
  assert (Hy1 : (0 < y1)%Qc) by (by eapply Qclt_le_trans).
  unfold Qcdiv. etrans.
  - apply Qcmult_le_compat_r; [exact Hx|]. by apply Qclt_le_weak, Qcinv_pos.
  - rewrite !(Qcmult_comm x2). apply Qcmult_le_compat_r.
    + by apply Qcinv_le.
    + by etrans.
Qed.

(** Exact arithmetic is the rounding that does not round. *)
Lemma rounding_exact : rounding Fin.
Proof. split; [|done..]. intros x y H. by apply fleb_fin. Qed.

Lemma round_exact (x : np_float) : Rounded.round Fin x = x.
Proof. by destruct x. Qed.

Lemma np_sum_exact (x : vector) : Rounded.np_sum Fin x = np_sum x.
Proof.
  unfold Rounded.np_sum, np_sum. generalize 0%F.
  induction x as [|y x IH]; intros acc; [done|].
  cbn [foldl]. unfold Rounded.add at 2. rewrite round_exact. apply IH.
Qed.

Lemma matrix_with_void_exact (mat0 : matrix) (p_void : np_float) :
  Rounded.matrix_with_void Fin mat0 p_void = matrix_with_void mat0 p_void.
Proof.
  unfold Rounded.matrix_with_void, matrix_with_void, np_sum_axis1.
  assert ((λ d, Rounded.div Fin (Rounded.mul Fin p_void d)
                  (Rounded.sub Fin 1 p_void)) <$> (Rounded.np_sum Fin <$> mat0)
          = (λ d, (p_void * d / (1 - p_void))%F) <$> (np_sum <$> mat0)) as ->;
    [|done].
  rewrite <- !list_fmap_compose. apply list_fmap_ext. intros _ row _. simpl.
  unfold Rounded.div, Rounded.mul, Rounded.sub.
  by rewrite !round_exact, np_sum_exact.
Qed.

(** The couplings in the matrix that the augmenter returns. *)
Lemma rounded_layout rnd (mat0 : matrix) (p_void : np_float) :
  square mat0 →
  ∃ mat, Rounded.matrix_with_void rnd mat0 p_void = Ok mat
    ∧ length mat = length mat0 + 1
    ∧ ∀ i, i < length mat0 →
        let lam := Rounded.div rnd
                     (Rounded.mul rnd p_void (Rounded.np_sum rnd (mat0 !!! i)))
                     (Rounded.sub rnd 1 p_void) in
        (mat !!! i) !!! length mat0 = lam ∧ (mat !!! length mat0) !!! i = lam.
Proof.
  intros Hsq. unfold Rounded.matrix_with_void.
  set (vals := (λ d, Rounded.div rnd (Rounded.mul rnd p_void d)
                       (Rounded.sub rnd 1 p_void))
               <$> (Rounded.np_sum rnd <$> mat0)).
  assert (Hvals : ∀ i, i < length mat0 →
            vals !!! i
            = Rounded.div rnd
                (Rounded.mul rnd p_void (Rounded.np_sum rnd (mat0 !!! i)))
                (Rounded.sub rnd 1 p_void)).
  { intros i Hi. unfold vals.
    rewrite !list_lookup_total_alt, !list_lookup_fmap.
    by destruct (lookup_lt_is_Some_2 mat0 i Hi) as [row ->]. }
  pose proof (square_shape _ Hsq) as Hsh. rewrite Hsh. cbn [fst].
  set (N := length mat0) in *.
  pose proof (assign_block_square N (np_zeros2 (N + 1) (N + 1)) mat0 Hsq eq_refl)
    as Hok.
  destruct (assign_block N (np_zeros2 (N + 1) (N + 1)) mat0) as [m1|] eqn:Hm1;
    [|done].
  cbn [mbind result_bind].
  pose proof (assign_block_length _ _ _ _ Hm1) as Hl1.
  rewrite np_zeros2_length in Hl1.
  assert (Hr1 : ∀ i, i < N + 1 → length (m1 !!! i) = N + 1).
  { intros i Hi. rewrite (assign_block_row_length _ _ _ _ _ Hm1)
      by (by rewrite np_zeros2_length).
    by apply np_zeros2_row_length. }
  eexists. split; [done|]. split.
  { by rewrite assign_col_init_length, assign_row_init_length. }
  intros i Hi. cbv zeta. rewrite <- Hvals by done. split.
  - rewrite assign_col_init_lookup;
      rewrite ?assign_row_init_length, ?Hl1; [|lia|].
    2:{ rewrite assign_row_init_row_length by (rewrite Hl1; lia).
        rewrite Hr1; lia. }
    rewrite decide_True; [done|lia].
  - rewrite assign_col_init_lookup;
      rewrite ?assign_row_init_length, ?Hl1; [|lia|].
    2:{ rewrite assign_row_init_row_length by (rewrite Hl1; lia).
        rewrite Hr1; lia. }
    rewrite decide_False by lia.
    rewrite assign_row_init_lookup by (rewrite ?Hr1, ?Hl1; lia).
    rewrite Hr1 by lia. rewrite decide_True; [done|lia].
Qed.

(** The order of two couplings of one node. *)
Lemma coupling_monotone rnd (p1 p2 d : Qc) :
  rounding rnd →
  (0 ≤ p1)%Qc → (p1 ≤ p2)%Qc → (0 ≤ d)%Qc →
  fltb 0 (rnd (1 - p2)%Qc) = true →
  fleb
    (Rounded.div rnd (Rounded.mul rnd (Fin p1) (Fin d))
       (Rounded.sub rnd 1 (Fin p1)))
    (Rounded.div rnd (Rounded.mul rnd (Fin p2) (Fin d))
       (Rounded.sub rnd 1 (Fin p2))) = true.
Proof.
  intros [Hmono H0 H1] Hp1 Hp12 Hd Hpos.
  unfold Rounded.div, Rounded.mul, Rounded.sub.
  change (Rounded.round rnd (Fin p1 * Fin d)%F) with (rnd (p1 * d)%Qc).
  change (Rounded.round rnd (Fin p2 * Fin d)%F) with (rnd (p2 * d)%Qc).
  change (Rounded.round rnd (1 - Fin p1)%F) with (rnd (1 - p1)%Qc).
  change (Rounded.round rnd (1 - Fin p2)%F) with (rnd (1 - p2)%Qc).
  assert (Ha1 : fleb 0 (rnd (p1 * d)%Qc) = true).
  { rewrite <- H0. apply Hmono. by apply Qcmult_nonneg. }
  assert (Ha12 : fleb (rnd (p1 * d)%Qc) (rnd (p2 * d)%Qc) = true).
  { apply Hmono. by apply Qcmult_le_compat_r. }
  assert (Hb21 : fleb (rnd (1 - p2)%Qc) (rnd (1 - p1)%Qc) = true).
  { apply Hmono. unfold Qcminus. rewrite !(Qcplus_comm 1).
    apply Qcplus_le_compat; [|done]. by apply Qcopp_le_compat. }
  assert (Hb1 : fleb (rnd (1 - p1)%Qc) 1 = true).
  { rewrite <- H1. apply Hmono. rewrite Qcle_minus_iff.
    replace (1 + - (1 - p1))%Qc with p1 by ring. done. }
  apply fleb_upper in Hb1 as [(y1 & Hy1 & Hy1le)|Hy1];
    rewrite Hy1 in Hb21 |- *; [|by destruct (rnd (1 - p2)%Qc) as [?|[]|]].
  apply fleb_upper in Hb21 as [(y2 & Hy2 & Hy21)|Hy2];
    rewrite Hy2 in Hpos |- *; [|done].
  apply fltb_fin in Hpos.
  assert (Hy1pos : (0 < y1)%Qc) by (by eapply Qclt_le_trans).
  assert (Hn1 : y1 ≠ 0%Qc) by (symmetry; by apply Qclt_not_eq).
  assert (Hn2 : y2 ≠ 0%Qc) by (symmetry; by apply Qclt_not_eq).
  apply fleb_lower in Ha1 as [(x1 & Hx1 & Hx1pos)|Hx1];
    rewrite Hx1 in Ha12 |- *.
  - apply fleb_lower in Ha12 as [(x2 & Hx2 & Hx12)|Hx2]; rewrite Hx2.
    + rewrite !fdiv_fin by done. cbn [Rounded.round].
      apply Hmono. by apply quotient_le.
    + rewrite fdiv_fin by done. cbn [Rounded.round].
      assert ((Inf false / Fin y2)%F = Inf false) as ->.
      { unfold fdiv. by rewrite (proj1 (Qcgt_alt y2 0) Hpos). }
      cbn [Rounded.round]. apply fleb_inf, Hmono. done.
  - destruct (rnd (p2 * d)%Qc) as [?|[]|] eqn:Hx2; try done.
    assert (∀ y, (0 < y)%Qc → (Inf false / Fin y)%F = Inf false) as Hinf.
    { intros y Hy. unfold fdiv. by rewrite (proj1 (Qcgt_alt y 0) Hy). }
    by rewrite !Hinf by done.
Qed.

(** C8, as the code has it.  With the base fixed and p1 < p2 in (0,1), the
    coupling of the void node to a node is at p2 greater than or equal to
    what it is at p1, in the last column and in the last row of the
    augmented matrix.  This holds for every arithmetic that rounds
    monotonically, on a node of degree 0 or more, as long as 1 - p2 does not
    round to 0, which it never does in float64.  The order is not strict: a
    node of degree 0 has the coupling 0 at both values, and two values of
    p_void that are close can round to the same coupling. *)
Theorem void_coupling_monotone (rnd : Qc → np_float) (mat0 : matrix)
    (p1 p2 d : Qc) (i : nat) :
  rounding rnd →
  square mat0 → (0 < p1)%Qc → (p1 < p2)%Qc → (p2 < 1)%Qc →
  fltb 0 (rnd (1 - p2)%Qc) = true →
  i < length mat0 → Rounded.np_sum rnd (mat0 !!! i) = Fin d → (0 ≤ d)%Qc →
  ∃ m1 m2,
    Rounded.matrix_with_void rnd mat0 (Fin p1) = Ok m1
    ∧ Rounded.matrix_with_void rnd mat0 (Fin p2) = Ok m2
    ∧ fleb ((m1 !!! i) !!! length mat0) ((m2 !!! i) !!! length mat0) = true
    ∧ fleb ((m1 !!! length mat0) !!! i) ((m2 !!! length mat0) !!! i) = true.
Proof.
  intros Hrnd Hsq H0 H12 H2 Hpos Hi Hd Hdpos.
  destruct (rounded_layout rnd mat0 (Fin p1) Hsq) as (m1 & Hm1 & _ & Hb1).
  destruct (rounded_layout rnd mat0 (Fin p2) Hsq) as (m2 & Hm2 & _ & Hb2).
  exists m1, m2. split; [done|]. split; [done|].
  destruct (Hb1 i Hi) as [-> ->]. destruct (Hb2 i Hi) as [-> ->].
  rewrite Hd.
  split; apply coupling_monotone; auto using Qclt_le_weak.
Qed.

(** ** Sums: lemmas *)

Lemma fadd_comm (x y : np_float) : (x + y)%F = (y + x)%F.
Proof.
  destruct x as [a|s|], y as [b|t|]; unfold fadd; try done.
  - by rewrite Qcplus_comm.
  - by destruct s, t.
Qed.

Lemma fadd_assoc (x y z : np_float) : (x + (y + z))%F = (x + y + z)%F.
Proof.
  destruct x as [a|s|], y as [b|t|], z as [c|u|]; unfold fadd; try done;
    try (by rewrite Qcplus_assoc);
    repeat match goal with s : bool |- _ => destruct s end; done.
Qed.

Lemma fadd_0_l (x : np_float) : (0 + x)%F = x.
Proof. destruct x; unfold fadd; try done. by rewrite Qcplus_0_l. Qed.

Lemma foldl_fadd (acc : np_float) (x : vector) :
  foldl fadd acc x = (acc + fsum x)%F.
Proof.
  revert acc. induction x as [|y x IH]; intros acc; simpl.
  - by rewrite fadd_comm, fadd_0_l.
  - by rewrite IH, fadd_assoc.
Qed.

Lemma np_sum_fsum (x : vector) : np_sum x = fsum x.
Proof. unfold np_sum. by rewrite foldl_fadd, fadd_0_l. Qed.

(** ** The accumulation loop *)

Lemma inner_loop (term : nat → np_float) (j : nat) (idx : list nat) (T : vector) :
  j < length T →
  foldl (λ T i, <[j := (T !!! j + term i)%F]> T) T idx
  = <[j := foldl (λ acc i, (acc + term i)%F) (T !!! j) idx]> T.
Proof.
  revert T. induction idx as [|i idx IH]; intros T Hj; simpl.
  - symmetry. apply list_insert_id. by apply list_lookup_lookup_total_lt.
  - rewrite IH by (by rewrite length_insert).
    rewrite list_lookup_total_insert_eq by done.
    by rewrite list_insert_insert_eq.
Qed.

Lemma outer_loop (f : nat → np_float → np_float) (js : list nat) (T : vector) :
  NoDup js → (∀ j, j ∈ js → j < length T) →
  length (foldl (λ T j, <[j := f j (T !!! j)]> T) T js) = length T
  ∧ ∀ k, foldl (λ T j, <[j := f j (T !!! j)]> T) T js !!! k
         = if decide (k ∈ js) then f k (T !!! k) else T !!! k.
Proof.
  revert T. induction js as [|j js IH]; intros T Hnd Hlt; cbn [foldl].
  - split; [done|]. intros k. rewrite decide_False; [done|]. apply not_elem_of_nil.
  - apply NoDup_cons in Hnd as [Hj Hnd].
    destruct (IH (<[j := f j (T !!! j)]> T) Hnd) as [Hlen Hk].
    { intros k Hkin. rewrite length_insert. apply Hlt. by right. }
    split; [by rewrite Hlen, length_insert|].
    intros k. rewrite Hk.
    destruct (decide (k = j)) as [->|Hne].
    + rewrite decide_False by done.
      rewrite decide_True by left.
      apply list_lookup_total_insert_eq, Hlt. left.
    + rewrite (list_lookup_total_insert_ne _ j k) by done.
      destruct (decide (k ∈ js)).
      * rewrite decide_True; [done|by right].
      * rewrite decide_False; [done|]. by intros [?|?]%elem_of_cons.
Qed.

Lemma accumulate_spec (N : nat) (term : nat → nat → np_float) :
  accumulate N term (np_zeros N)
  = (λ j, fsum ((λ i, term i j) <$> seq 1 (N - 1))) <$> seq 0 N.
Proof.
  unfold accumulate.
  set (f := λ j (t : np_float), foldl (λ acc i, (acc + term i j)%F) t (seq 1 (N - 1))).
  assert (Hstep : ∀ js T, (∀ j, j ∈ js → j < length T) →
    foldl (λ T j, foldl (λ T i, <[j := (T !!! j + term i j)%F]> T) T (seq 1 (N - 1))) T js
    = foldl (λ T j, <[j := f j (T !!! j)]> T) T js).
  { induction js as [|j js IH]; intros T Hlt; simpl; [done|].
    rewrite (inner_loop (λ i, term i j)) by (apply Hlt; left).
    apply IH. intros k Hk. rewrite length_insert. apply Hlt. by right. }
  assert (Hz : length (np_zeros N) = N)
    by (unfold np_zeros; by rewrite length_replicate).
  assert (Hin : ∀ j, j ∈ seq 0 N → j < length (np_zeros N)).
  { intros j [_ Hj]%elem_of_seq. rewrite Hz. lia. }
  rewrite Hstep by done.
  destruct (outer_loop f (seq 0 N) (np_zeros N) (NoDup_seq 0 N) Hin) as [Hlen Hk].
  apply (list_eq_same_length _ _ N); [by rewrite length_fmap, length_seq|lia|].
  intros k x y HkN Hx Hy.
  apply list_lookup_total_correct in Hx. rewrite Hk in Hx.
  rewrite decide_True in Hx by (apply elem_of_seq; lia).
  rewrite list_lookup_fmap, lookup_seq_lt in Hy by done. simpl in Hy.
  injection Hy as <-. subst x. unfold f.
  unfold np_zeros. rewrite lookup_total_replicate_2 by done.
  rewrite <- (foldl_fmap fadd). by rewrite foldl_fadd, fadd_0_l.
Qed.

(** ** From values to rationals *)

Lemma fsum_fin (x : list Qc) : fsum (Fin <$> x) = Fin (qsum x).
Proof.
  induction x as [|a x IH]; [done|].
  change (fsum (Fin <$> a :: x)) with (Fin a + fsum (Fin <$> x))%F.
  by rewrite IH.
Qed.

Lemma np_sum_fin (x : list Qc) : np_sum (Fin <$> x) = Fin (qsum x).
Proof. by rewrite np_sum_fsum, fsum_fin. Qed.

Lemma lookup_total_fin (x : list Qc) i : (Fin <$> x) !!! i = Fin (x !!! i).
Proof.
  rewrite !list_lookup_total_alt, list_lookup_fmap. by destruct (x !! i).
Qed.

Lemma lookup_total_fmat (M : list (list Qc)) i j :
  (fmat M !!! i) !!! j = Fin ((M !!! i) !!! j).
Proof.
  unfold fmat. rewrite (list_lookup_total_alt (_ <$> M)), list_lookup_fmap.
  rewrite (list_lookup_total_alt M).
  destruct (M !! i); simpl; [apply lookup_total_fin|done].
Qed.

Lemma np_sum_axis1_fmat (M : list (list Qc)) :
  np_sum_axis1 (fmat M) = Fin <$> (qsum <$> M).
Proof.
  unfold np_sum_axis1, fmat. rewrite <- !list_fmap_compose.
  apply list_fmap_ext. intros _ row _. simpl. apply np_sum_fin.
Qed.

Lemma zip_with_fin (x y : list Qc) :
  zip_with fmul (Fin <$> x) (Fin <$> y) = Fin <$> zip_with Qcmult x y.
Proof.
  revert y. induction x as [|a x IH]; intros [|b y]; simpl; [done..|].
  by rewrite IH.
Qed.

Lemma np_dot_fmat (M : list (list Qc)) (d : list Qc) :
  np_dot (fmat M) (Fin <$> d)
  = Fin <$> ((λ row, qsum (zip_with Qcmult row d)) <$> M).
Proof.
  unfold np_dot, fmat. rewrite <- !list_fmap_compose.
  apply list_fmap_ext. intros _ row _. simpl.
  by rewrite zip_with_fin, np_sum_fin.
Qed.

Lemma zip_with_indexed (x y : list Qc) n :
  length x = n → length y = n →
  zip_with Qcmult x y = (λ k, x !!! k * y !!! k)%Qc <$> seq 0 n.
Proof.
  intros Hx Hy. apply (list_eq_same_length _ _ n).
  - by rewrite length_fmap, length_seq.
  - rewrite length_zip_with. lia.
  - intros k a b Hk Ha Hb.
    apply lookup_zip_with_Some in Ha as (p & q' & -> & Hp & Hq).
    rewrite list_lookup_fmap, lookup_seq_lt in Hb by done. simpl in Hb.
    injection Hb as <-.
    by rewrite (list_lookup_total_correct _ _ _ Hp),
      (list_lookup_total_correct _ _ _ Hq).
Qed.

Lemma square_shape_length {A} (M : list (list A)) n :
  length M = n → square M → shape M = (n, n).
Proof. intros <- H. by apply square_shape. Qed.

(** ** The solver, unfolded *)

Lemma insert_index_length w i s : length (insert_index w i s) = S (length s).
Proof. induction s as [|k s IH]; simpl; [done|]. case_match; simpl; by rewrite ?IH. Qed.

Lemma np_argsort_length w : length (np_argsort w) = length w.
Proof.
  unfold np_argsort.
  assert (H : ∀ idx s, length (foldl (λ s i, insert_index w i s) s idx)
                       = length s + length idx).
  { induction idx as [|i idx IH]; intros s; simpl; [lia|].
    rewrite IH, insert_index_length. lia. }
  rewrite H, length_seq. done.
Qed.

Lemma laplacian_square (A : matrix) :
  square A → is_ok (laplacian A) = true.
Proof.
  intros Hsq. unfold laplacian, broadcast2.
  rewrite (square_shape _ Hsq).
  assert (Hd : shape (np_diag (np_sum_axis1 A)) = (length A, length A)).
  { apply square_shape_length.
    - unfold np_diag, np_sum_axis1. by rewrite length_imap, length_fmap.
    - unfold square, np_diag. rewrite Forall_lookup. intros i row Hrow.
      rewrite list_lookup_imap in Hrow.
      destruct (np_sum_axis1 A !! i); [|done]. injection Hrow as <-.
      rewrite length_insert, length_imap. unfold np_zeros.
      by rewrite length_replicate. }
  rewrite Hd. simpl. unfold bdim. by rewrite !decide_True.
Qed.

Lemma sorted_eigenvalues_fin w :
  (λ i, Fin (re (w !!! i))) <$> np_argsort w = Fin <$> sorted_eigenvalues w.
Proof. unfold sorted_eigenvalues. by rewrite <- list_fmap_compose. Qed.

Lemma sorted_eigenvectors_fmat w vr :
  (λ i, (λ z, Fin (re z)) <$> column vr i) <$> np_argsort w
  = fmat (sorted_eigenvectors w vr).
Proof.
  unfold sorted_eigenvectors, fmat. rewrite <- list_fmap_compose.
  apply list_fmap_ext. intros _ i _. simpl. by rewrite <- list_fmap_compose.
Qed.

Lemma GMFPT_theory_unfold eig (A L : matrix) w vr (weighted : bool) :
  laplacian A = Ok L → eig L = Ok (w, vr) →
  GMFPT_theory eig A weighted =
    let N := length A in
    let d := np_sum_axis1 A in
    let E := (np_sum d / 2)%F in
    let l := Fin <$> sorted_eigenvalues w in
    let v := fmat (sorted_eigenvectors w vr) in
    let dv := np_dot v d in
    if negb weighted then
      c ← py_truediv (float_of_nat N) (float_of_nat N - 1)%F;
      Ok (fmul c <$>
          ((λ j, fsum ((λ i, unweighted_term E l dv v i j) <$> seq 1 (N - 1)))
             <$> seq 0 N))
    else
      Ok ((λ t, t / (2 * E))%F <$>
          ((λ j, fsum ((λ i, weighted_term E l dv v i j) <$> seq 1 (N - 1)))
             <$> seq 0 N)).
Proof.
  intros HL He. unfold GMFPT_theory. fold (laplacian A). rewrite HL.
  cbn [mbind result_bind]. rewrite He. cbn [mbind result_bind fst snd shape].
  rewrite !accumulate_spec.
  rewrite (sorted_eigenvalues_fin w), (sorted_eigenvectors_fmat w vr). done.
Qed.

Lemma Qc_2_neq_0 : (2%Qc : Qc) ≠ 0%Qc.
Proof. intros H. apply Qceq_alt in H. discriminate H. Qed.

Lemma degrees_indexed (Aq : list (list Qc)) :
  qsum <$> Aq = degree Aq <$> seq 0 (length Aq).
Proof.
  apply (list_eq_same_length _ _ (length Aq)).
  - by rewrite length_fmap, length_seq.
  - by rewrite length_fmap.
  - intros k a b Hk Ha Hb.
    rewrite list_lookup_fmap in Ha.
    rewrite list_lookup_fmap, lookup_seq_lt in Hb by done. simpl in Hb.
    injection Hb as <-. unfold degree.
    rewrite list_lookup_total_alt. destruct (Aq !! k); simpl in *; congruence.
Qed.

Lemma degree_lookup (Aq : list (list Qc)) k :
  (qsum <$> Aq) !!! k = degree Aq k.
Proof.
  unfold degree. rewrite !list_lookup_total_alt, list_lookup_fmap.
  by destruct (Aq !! k).
Qed.

Lemma total_weight_fin (Aq : list (list Qc)) :
  (np_sum (np_sum_axis1 (fmat Aq)) / 2)%F = Fin (total_weight (length Aq) Aq).
Proof.
  rewrite np_sum_axis1_fmat, np_sum_fin, fdiv_fin by apply Qc_2_neq_0.
  unfold total_weight, big_sum. by rewrite degrees_indexed.
Qed.

Lemma sorted_eigenvectors_length w vr :
  length (sorted_eigenvectors w vr) = length w.
Proof.
  unfold sorted_eigenvectors. by rewrite length_fmap, np_argsort_length.
Qed.

Lemma sorted_eigenvector_length w vr i :
  i < length w → length (sorted_eigenvectors w vr !!! i) = length vr.
Proof.
  intros Hi. unfold sorted_eigenvectors.
  rewrite list_lookup_total_alt, list_lookup_fmap.
  destruct (lookup_lt_is_Some_2 (np_argsort w) i) as [k ->];
    [by rewrite np_argsort_length|].
  simpl. unfold column. by rewrite !length_fmap.
Qed.

Lemma proj_degree_fin (Aq : list (list Qc)) w vr i :
  length w = length Aq → length vr = length Aq → i < length Aq →
  np_dot (fmat (sorted_eigenvectors w vr)) (np_sum_axis1 (fmat Aq)) !!! i
  = Fin (proj_degree (length Aq) Aq (sorted_eigenvectors w vr) i).
Proof.
  intros Hw Hvr Hi.
  rewrite np_sum_axis1_fmat, np_dot_fmat, lookup_total_fin. f_equal.
  rewrite list_lookup_total_alt, list_lookup_fmap.
  destruct (lookup_lt_is_Some_2 (sorted_eigenvectors w vr) i) as [row Hrow];
    [by rewrite sorted_eigenvectors_length, Hw|].
  rewrite Hrow. simpl. unfold proj_degree, big_sum.
  rewrite (list_lookup_total_correct _ _ _ Hrow).
  assert (Hlen : length row = length Aq).
  { rewrite <- (list_lookup_total_correct _ _ _ Hrow).
    rewrite sorted_eigenvector_length; [done|by rewrite Hw]. }
  rewrite (zip_with_indexed _ _ (length Aq)) by (by rewrite ?length_fmap).
  f_equal. apply list_fmap_ext. intros _ k _. by rewrite degree_lookup.
Qed.

Lemma fsum_fin_terms (term : nat → np_float) (tq : nat → Qc) a n :
  (∀ i, a ≤ i < a + n → term i = Fin (tq i)) →
  fsum (term <$> seq a n) = Fin (big_sum a n tq).
Proof.
  intros H. unfold big_sum. rewrite <- fsum_fin, <- list_fmap_compose.
  f_equal. apply list_fmap_ext. intros k i Hk. simpl.
  apply H. by apply lookup_seq in Hk as [-> ?]; lia.
Qed.

Lemma py_truediv_nat (N : nat) :
  N ≠ 1 →
  py_truediv (float_of_nat N) (float_of_nat N - 1)%F
  = Ok (Fin (Qc_of_nat N / (Qc_of_nat N - 1))%Qc).
Proof.
  intros HN. unfold float_of_nat, fsub, fneg, fadd, py_truediv.
  fold (Qc_of_nat N).
  assert (Hne : (Qc_of_nat N + - 1)%Qc ≠ 0%Qc).
  { intros H. apply HN.
    assert (Qc_of_nat N = 1%Qc) as H1.
    { rewrite <- (Qcplus_0_r (Qc_of_nat N)), <- (Qcplus_opp_r 1).
      rewrite (Qcplus_comm 1), Qcplus_assoc, H. ring. }
    unfold Qc_of_nat in H1. rewrite <- Z2Qc_inj_1 in H1.
    apply Z2Qc_inj in H1. lia. }
  pose proof (Qccompare_neq _ _ Hne) as Hc.
  rewrite fdiv_fin by done.
  by destruct (Qc_of_nat N + - 1 ?= 0)%Qc.
Qed.

(** ** The solver: claims *)

(** What the unweighted variant computes on a connected graph. *)
Lemma GMFPT_unweighted_finite eig (Aq : list (list Qc)) w vr :
  let N := length Aq in
  let l := sorted_eigenvalues w in
  let v := sorted_eigenvectors w vr in
  square Aq → 2 ≤ N →
  laplacian (fmat Aq) ≫= eig = Ok (w, vr) →
  eig_shape N w vr →
  (∀ i, 1 ≤ i < N → l !!! i ≠ 0%Qc) →
  GMFPT_theory eig (fmat Aq) false
  = Ok (Fin <$> (unweighted_formula N Aq l v <$> seq 0 N)).
Proof.
  intros N l v Hsq HN Heig (Hw & Hvr & _) Hl. subst N l v.
  destruct (laplacian (fmat Aq)) as [L|] eqn:HL; [|done].
  cbn [mbind result_bind] in Heig.
  rewrite (GMFPT_theory_unfold eig _ L w vr false HL Heig).
  cbn zeta. cbn [negb].
  assert (HNA : length (fmat Aq) = length Aq)
    by (unfold fmat; by rewrite length_fmap).
  rewrite HNA, py_truediv_nat by lia. cbn [mbind result_bind].
  f_equal. rewrite <- !list_fmap_compose.
  apply list_fmap_ext. intros _ j _. simpl.
  rewrite total_weight_fin.
  erewrite fsum_fin_terms; [done|].
  intros i Hi. unfold unweighted_term.
  rewrite lookup_total_fin, lookup_total_fmat.
  rewrite proj_degree_fin by lia.
  rewrite fdiv_fin by (apply Hl; lia). done.
Qed.


(** C3.  On an N x N matrix with N ≥ 2 whose retained eigenvalues are not
    zero (the graph is connected), the solver called with [weighted=False]
    returns, for each node j, the sum over the retained modes i = 1..N−1 of
    (1/λ_i)(2E v[i,j]² − v[i,j] dv[i]) scaled by N/(N−1), where the
    eigenpairs are sorted by eigenvalue and dv[i] = Σ_k v[i,k] d[k]. *)
Theorem GMFPT_unweighted_formula eig (Aq : list (list Qc)) w vr :
  let N := length Aq in
  let l := sorted_eigenvalues w in
  let v := sorted_eigenvectors w vr in
  square Aq → 2 ≤ N →
  laplacian (fmat Aq) ≫= eig = Ok (w, vr) →
  eig_shape N w vr →
  (∀ i, 1 ≤ i < N → l !!! i ≠ 0%Qc) →
  GMFPT_theory eig (fmat Aq) false
  = Ok (Fin <$> (unweighted_formula N Aq l v <$> seq 0 N)).
Proof. apply GMFPT_unweighted_finite. Qed.

(** ** Non-finite values propagate *)

Lemma fadd_finite (x y : np_float) :
  is_finite (x + y)%F = true → is_finite x = true ∧ is_finite y = true.
Proof. destruct x, y; unfold fadd; simpl; try done. by case_match. Qed.

Lemma fmul_finite (x y : np_float) :
  is_finite (x * y)%F = true → is_finite x = true ∧ is_finite y = true.
Proof.
  destruct x as [a|s|], y as [b|t|]; unfold fmul, inf_times; simpl; try done;
    by case_match.
Qed.

Lemma fdiv_finite_num (x y : np_float) :
  is_finite (x / y)%F = true → is_finite x = true.
Proof.
  destruct x as [a|s|], y as [b|t|]; unfold fdiv; simpl; try done;
    by repeat case_match.
Qed.

Lemma fsum_finite (x : vector) :
  is_finite (fsum x) = true → Forall (λ t, is_finite t = true) x.
Proof.
  induction x as [|a x IH]; [done|].
  change (fsum (a :: x)) with (a + fsum x)%F.
  intros [Ha Hx]%fadd_finite. constructor; auto.
Qed.

Lemma term_zero_eigenvalue (l : vector) (i : nat) (x : np_float) :
  l !!! i = 0%F → is_finite (1 / l !!! i * x)%F = false.
Proof.
  intros ->. apply not_true_is_false. intros [H _]%fmul_finite.
  by rewrite fdiv_zero_not_finite in H.
Qed.

(** C5, as the code has it.  The solver has no check of the spectrum.  When
    a retained eigenvalue is zero (the graph is disconnected) it raises
    nothing: it divides by that eigenvalue, which numpy answers with inf, and
    returns a vector none of whose entries is finite. *)
Theorem GMFPT_zero_eigenvalue eig (A : matrix) w vr (weighted : bool) (k : nat) :
  laplacian A ≫= eig = Ok (w, vr) →
  length w = length A →
  1 ≤ k < length A →
  sorted_eigenvalues w !!! k = 0%Qc →
  ∃ T, GMFPT_theory eig A weighted = Ok T
    ∧ length T = length A
    ∧ Forall (λ t, is_finite t = false) T.
Proof.
  intros Heig Hw Hk Hzero.
  destruct (laplacian A) as [L|] eqn:HL; [|done].
  cbn [mbind result_bind] in Heig.
  rewrite (GMFPT_theory_unfold eig _ L w vr weighted HL Heig). cbn zeta.
  set (l := Fin <$> sorted_eigenvalues w).
  assert (Hlk : l !!! k = 0%F).
  { unfold l. by rewrite lookup_total_fin, Hzero. }
  assert (Hin : k ∈ seq 1 (length A - 1)) by (apply elem_of_seq; lia).
  assert (Hsum : ∀ (term : nat → np_float),
            is_finite (term k) = false →
            is_finite (fsum (term <$> seq 1 (length A - 1))) = false).
  { intros term Hterm. apply not_true_is_false. intros H%fsum_finite.
    rewrite Forall_forall in H.
    rewrite (H (term k)) in Hterm; [done|].
    apply list_elem_of_fmap. by exists k. }
  destruct weighted; cbn [negb].
  - eexists. split; [done|]. split; [by rewrite !length_fmap, length_seq|].
    rewrite <- list_fmap_compose. apply Forall_fmap, Forall_forall.
    intros j _. simpl. apply not_true_is_false. intros H%fdiv_finite_num.
    rewrite Hsum in H; [done|]. by apply term_zero_eigenvalue.
  - rewrite py_truediv_nat by lia. cbn [mbind result_bind].
    eexists. split; [done|]. split; [by rewrite !length_fmap, length_seq|].
    rewrite <- list_fmap_compose. apply Forall_fmap, Forall_forall.
    intros j _. simpl. apply not_true_is_false. intros [_ H]%fmul_finite.
    rewrite Hsum in H; [done|]. by apply term_zero_eigenvalue.
Qed.

(** C10.  On a 1 x 1 matrix the solver called with [weighted=False] returns
    no vector: unless the eigen-solver itself raises, the final factor
    [float(N)/(N-1.0)] divides by zero and raises ZeroDivisionError. *)
Theorem GMFPT_unweighted_single_node eig (a : np_float) :
  is_ok (GMFPT_theory eig [[a]] false) = false
  ∧ GMFPT_theory eig [[a]] false
    = match laplacian [[a]] ≫= eig with
      | Ok _ => Raise ZeroDivisionError
      | Raise e => Raise e
      end.
Proof.
  assert (H : GMFPT_theory eig [[a]] false
              = match laplacian [[a]] ≫= eig with
                | Ok _ => Raise ZeroDivisionError
                | Raise e => Raise e
                end).
  { unfold GMFPT_theory. fold (laplacian [[a]]).
    destruct (laplacian [[a]]) as [L|e]; [|done]. cbn [mbind result_bind].
    destruct (eig L) as [[w vr]|e]; [|done]. done. }
  split; [|done]. rewrite H. by destruct (laplacian [[a]] ≫= eig).
Qed.

(** ** Rescaling the weights: lemmas *)













Lemma scaled_lookup (c : Qc) (l : list Qc) i :
  (Qcmult c <$> l) !!! i = (c * l !!! i)%Qc.
Proof.
  rewrite !list_lookup_total_alt, list_lookup_fmap.
  destruct (l !! i); simpl; [done|ring].
Qed.




(** ** The store: allocation and writes *)

Section store_steps.

Context {B : Type}.
Implicit Types (h l : Store.heap) (k : nat).

Lemma run_bind {A} (m : Store.prog A) (f : A → Store.prog B) hp a hp' :
  m hp = (Ok a, hp') → (m ≫= f) hp = f a hp'.
Proof. intros H. unfold mbind, Store.prog_bind. by rewrite H. Qed.

Lemma run_alloc a (f : Store.loc → Store.prog B) h l :
  (Store.alloc a ≫= f) (h ++ l) = f (length h + length l) (h ++ (l ++ [a])).
Proof.
  cbv [mbind Store.prog_bind Store.alloc]. by rewrite length_app, app_assoc.
Qed.

Lemma run_load_new k (f : Store.ndarray → Store.prog B) h l :
  (Store.load (length h + k) ≫= f) (h ++ l) = f (l !!! k) (h ++ l).
Proof.
  cbv [mbind Store.prog_bind Store.load].
  rewrite lookup_total_app_r by lia. do 2 f_equal. lia.
Qed.

Lemma run_load_old r x (f : Store.ndarray → Store.prog B) h l :
  h !! r = Some x → (Store.load r ≫= f) (h ++ l) = f x (h ++ l).
Proof.
  intros H. cbv [mbind Store.prog_bind Store.load].
  rewrite lookup_total_app_l by (by eapply lookup_lt_Some).
  by rewrite (list_lookup_total_correct _ _ _ H).
Qed.

Lemma run_store k a (f : () → Store.prog B) h l :
  (Store.store (length h + k) a ≫= f) (h ++ l) = f () (h ++ <[k := a]> l).
Proof. cbv [mbind Store.prog_bind Store.store]. by rewrite insert_app_r. Qed.

Lemma run_lift_ok {A} (x : A) (f : A → Store.prog B) hp :
  (Store.lift (Ok x) ≫= f) hp = f x hp.
Proof. done. Qed.

Lemma run_lift_raise {A} e (f : A → Store.prog B) hp :
  (Store.lift (Raise e) ≫= f) hp = (Raise e, hp).
Proof. done. Qed.

End store_steps.

Lemma heap_frame (h l : Store.heap) (r : Store.loc) x :
  h !! r = Some x → (h ++ l) !! r = Some x.
Proof. intros H. rewrite lookup_app_l; [done|]. by eapply lookup_lt_Some. Qed.

Lemma run_add_loop (term : nat → np_float) (j k : nat) (idx : list nat)
    (h l : Store.heap) (t0 : vector) :
  l !! k = Some (Store.Vec t0) →
  Store.for_each idx (λ i, Store.add_at (length h + k) j (term i)) (h ++ l)
  = (Ok (), h ++ <[k := Store.Vec (foldl (λ T i, <[j := (T !!! j + term i)%F]> T)
                               t0 idx)]> l).
Proof.
  revert l t0. induction idx as [|i idx IH]; intros l t0 Hk; cbn [Store.for_each foldl].
  - unfold mret, Store.prog_ret. by rewrite list_insert_id.
  - unfold Store.add_at. 
    erewrite run_bind; last first.
    { rewrite run_load_new.
      rewrite (list_lookup_total_correct _ _ _ Hk). cbn [Store.as_vec].
      unfold Store.store. by rewrite insert_app_r. }
    rewrite (IH _ (<[j := (t0 !!! j + term i)%F]> t0)).
    + by rewrite list_insert_insert_eq.
    + apply list_lookup_insert_eq. by eapply lookup_lt_Some.
Qed.

Lemma run_accumulate (N : nat) (term : nat → nat → np_float) (k : nat)
    (js : list nat) (h l : Store.heap) (t0 : vector) :
  l !! k = Some (Store.Vec t0) →
  Store.for_each js (λ j,
    Store.for_each (seq 1 (N - 1)) (λ i, Store.add_at (length h + k) j (term i j)))
    (h ++ l)
  = (Ok (), h ++ <[k := Store.Vec (foldl (λ T j,
        foldl (λ T i, <[j := (T !!! j + term i j)%F]> T) T (seq 1 (N - 1)))
        t0 js)]> l).
Proof.
  revert l t0. induction js as [|j js IH]; intros l t0 Hk; cbn [Store.for_each foldl].
  - unfold mret, Store.prog_ret. by rewrite list_insert_id.
  - erewrite run_bind; last by apply (run_add_loop (λ i, term i j)).
    erewrite IH.
    + by rewrite list_insert_insert_eq.
    + apply list_lookup_insert_eq. by eapply lookup_lt_Some.
Qed.

Lemma matrix_with_void_run (h : Store.heap) (r0 : Store.loc) (a : matrix)
    (p_void : np_float) :
  h !! r0 = Some (Store.Mat a) →
  Store.matrix_with_void r0 p_void (h ++ [])
  = let d_j := Store.Vec (np_sum_axis1 a) in
    let lambda_j := Store.Vec (void_coupling a p_void) in
    match matrix_with_void a p_void with
    | Ok m => (Ok (length h + 2), h ++ [d_j; lambda_j; Store.Mat m])
    | Raise e =>
        (Raise e,
         h ++ [d_j; lambda_j;
               Store.Mat (np_zeros2 (length a + 1) (length a + 1))])
    end.
Proof.
  intros Ha. unfold Store.matrix_with_void, matrix_with_void.
  rewrite (run_load_old _ _ _ _ _ Ha). cbn [Store.as_mat].
  rewrite run_alloc. cbn [length app].
  rewrite run_load_new. cbn [lookup_total list_lookup_total Store.as_vec].
  rewrite run_alloc. cbn [length app].
  rewrite run_alloc. cbn [length app].
  rewrite run_load_new. cbn [lookup_total list_lookup_total Store.as_mat].
  rewrite (run_load_old _ _ _ _ _ Ha). cbn [Store.as_mat].
  destruct (assign_block _ _ a) as [m'|e].
  - rewrite run_lift_ok.
    rewrite run_store. cbn [insert list_insert].
    rewrite run_load_new. cbn [lookup_total list_lookup_total Store.as_mat].
    rewrite run_load_new. cbn [lookup_total list_lookup_total Store.as_vec].
    rewrite run_store. cbn [insert list_insert].
    rewrite run_load_new. cbn [lookup_total list_lookup_total Store.as_mat].
    rewrite run_load_new. cbn [lookup_total list_lookup_total Store.as_vec].
    rewrite run_store. cbn [insert list_insert].
    done.
  - by rewrite run_lift_raise.
Qed.

Lemma GMFPT_theory_run eig (h : Store.heap) (A : Store.loc) (a : matrix)
    (weighted : bool) :
  h !! A = Some (Store.Mat a) →
  ∃ l, match GMFPT_theory eig a weighted with
       | Ok T =>
           ∃ out, Store.GMFPT_theory eig A weighted (h ++ []) = (Ok out, h ++ l)
                  ∧ length h ≤ out
                  ∧ (h ++ l) !! out = Some (Store.Vec T)
       | Raise e =>
           Store.GMFPT_theory eig A weighted (h ++ []) = (Raise e, h ++ l)
       end.
Proof.
  intros Ha. unfold Store.GMFPT_theory, GMFPT_theory.
  rewrite (run_load_old _ _ _ _ _ Ha). cbn [Store.as_mat].
  rewrite run_alloc. cbn [length app].
  rewrite run_load_new. cbn [lookup_total list_lookup_total Store.as_vec].
  rewrite (run_load_old _ _ _ _ _ Ha). cbn [Store.as_mat].
  destruct (broadcast2 fsub _ a) as [L|e]; cbn [mbind result_bind];
    [rewrite run_lift_ok|rewrite run_lift_raise; by eexists].
  rewrite run_alloc. cbn [length app].
  destruct (eig L) as [[w vr]|e]; cbn [mbind result_bind];
    [rewrite run_lift_ok|rewrite run_lift_raise; by eexists].
  cbn [fst snd].
  rewrite run_alloc. cbn [length app].
  rewrite run_alloc. cbn [length app].
  rewrite run_alloc. cbn [length app].
  rewrite run_load_new. cbn [lookup_total list_lookup_total Store.as_mat].
  rewrite run_load_new. cbn [lookup_total list_lookup_total Store.as_vec].
  rewrite run_alloc. cbn [length app].
  rewrite run_load_new. cbn [lookup_total list_lookup_total Store.as_vec].
  rewrite run_load_new. cbn [lookup_total list_lookup_total Store.as_vec].
  destruct weighted; cbn [negb].
  - erewrite run_bind; last by (apply run_accumulate; reflexivity).
    cbn [insert list_insert].
    rewrite run_load_new. cbn [lookup_total list_lookup_total Store.as_vec].
    unfold Store.alloc. rewrite length_app. cbn [length].
    rewrite <- app_assoc. cbn [app].
    eexists. eexists. split; [done|]. split; [lia|].
    rewrite lookup_app_r by lia.
    by replace (length h + 6 - length h) with 6 by lia.
  - erewrite run_bind; last by (apply run_accumulate; reflexivity).
    cbn [insert list_insert].
    destruct (py_truediv _ _) as [c|e]; cbn [mbind result_bind];
      [rewrite run_lift_ok|rewrite run_lift_raise; by eexists].
    rewrite run_load_new. cbn [lookup_total list_lookup_total Store.as_vec].
    unfold Store.alloc. rewrite length_app. cbn [length].
    rewrite <- app_assoc. cbn [app].
    eexists. eexists. split; [done|]. split; [lia|].
    rewrite lookup_app_r by lia.
    by replace (length h + 6 - length h) with 6 by lia.
Qed.

(** ** The store: claims *)

(** C9.  Neither function writes to an array of its caller.  Whatever is in
    the store before a call of the augmenter or of the solver is there,
    unchanged, after it, the input matrix included, whether the call returns
    or raises.  The array returned is a new one: its reference denotes no
    array of the store before the call, hence not the input.  Each returns
    in the store what the function on values returns. *)
Theorem inputs_not_mutated eig (h : Store.heap) (r0 : Store.loc) (a : matrix)
    (p_void : np_float) (weighted : bool) :
  h !! r0 = Some (Store.Mat a) →
  (let '(res, h') := Store.matrix_with_void r0 p_void h in
   (∀ r x, h !! r = Some x → h' !! r = Some x)
   ∧ match res with
     | Ok mat =>
         mat ≠ r0 ∧ h !! mat = None
         ∧ ∃ m, h' !! mat = Some (Store.Mat m)
              ∧ matrix_with_void a p_void = Ok m
     | Raise e => matrix_with_void a p_void = Raise e
     end)
  ∧ (let '(res, h') := Store.GMFPT_theory eig r0 weighted h in
     (∀ r x, h !! r = Some x → h' !! r = Some x)
     ∧ match res with
       | Ok out =>
           out ≠ r0 ∧ h !! out = None
           ∧ ∃ T, h' !! out = Some (Store.Vec T)
                ∧ GMFPT_theory eig a weighted = Ok T
       | Raise e => GMFPT_theory eig a weighted = Raise e
       end).
Proof.
  intros Ha. pose proof (lookup_lt_Some _ _ _ Ha) as Hr0. split.
  - pose proof (matrix_with_void_run h r0 a p_void Ha) as Hrun.
    rewrite app_nil_r in Hrun. rewrite Hrun. cbn zeta.
    destruct (matrix_with_void a p_void) as [m|e].
    + split; [intros r x; apply heap_frame|].
      split; [lia|]. split; [apply lookup_ge_None; lia|].
      exists m. split; [|done].
      rewrite lookup_app_r by lia.
      by replace (length h + 2 - length h) with 2 by lia.
    + split; [intros r x; apply heap_frame|done].
  - destruct (GMFPT_theory_run eig h r0 a weighted Ha) as [l Hrun].
    rewrite app_nil_r in Hrun.
    destruct (GMFPT_theory eig a weighted) as [T|e].
    + destruct Hrun as (out & -> & Hout & HT).
      split; [intros r x; apply heap_frame|].
      split; [lia|]. split; [apply lookup_ge_None; lia|]. by exists T.
    + rewrite Hrun. split; [intros r x; apply heap_frame|done].
Qed.

(** * The claims on concrete graphs *)

(** ** The example data are what they are said to be *)

Lemma A0_square : square A0q ∧ square A0.
Proof. split; repeat constructor. Qed.

Lemma A0_symmetric : symmetric A0.
Proof.
  intros i j Hi Hj. simpl in Hi, Hj.
  destruct i as [|[|[|[|]]]]; try lia;
    destruct j as [|[|[|[|]]]]; try lia; reflexivity.
Qed.

Lemma A0_spectrum :
  laplacian A0 = Ok (fmat L0q) ∧ eigen_check L0q w0 vr0 = true
  ∧ laplacian (fmat (qscale 2 A0q)) = Ok (fmat (qscale 2 L0q))
  ∧ eigen_check (qscale 2 L0q) (cscale 2 <$> w0) vr0 = true.
Proof. repeat split; compute_done. Qed.

Lemma A0_eig_shape : eig_shape 4 w0 vr0.
Proof. repeat split; repeat constructor. Qed.

Lemma A0_retained_nonzero i :
  1 ≤ i < 4 → sorted_eigenvalues w0 !!! i ≠ 0%Qc.
Proof. intros Hi. destruct i as [|[|[|[|]]]]; try lia; compute_done. Qed.

Lemma B0_spectrum :
  laplacian (fmat B0q) = Ok (fmat LBq) ∧ eigen_check LBq wB vrB = true
  ∧ sorted_eigenvalues wB = [0; 0; rat 2 1; rat 2 1]%Qc.
Proof. repeat split; compute_done. Qed.

(** ** The augmenter *)

(** The augmented [A0] at p_void = 3/10 has five rows. *)
Lemma matrix_with_void_entries_witness :
  square A0
  ∧ ∃ mat, matrix_with_void A0 (Fin (rat 3 10)) = Ok mat ∧ length mat = 5.
Proof.
  split; [apply A0_square|].
  destruct (matrix_with_void_entries A0 (Fin (rat 3 10)))
    as (mat & Hmat & Hlen & _); [apply A0_square|].
  by exists mat.
Defined.

(** The augmented [A0] at p_void = 3/10 is symmetric. *)
Lemma matrix_with_void_symmetric_witness :
  square A0 ∧ symmetric A0
  ∧ ∃ mat, matrix_with_void A0 (Fin (rat 3 10)) = Ok mat ∧ symmetric mat.
Proof.
  split; [apply A0_square|]. split; [apply A0_symmetric|].
  destruct (matrix_with_void_symmetric A0 (Fin (rat 3 10)))
    as (mat & Hmat & Hsym & _); [apply A0_square|apply A0_symmetric|].
  by exists mat.
Defined.

(** Counterexample to C4: with p_void = 2, 0, -1 and 1, with a base that is
    asymmetric and has a negative, a nan and an inf entry, and with a base
    that is not square, the augmenter returns a matrix. *)
Lemma matrix_with_void_accepts_invalid :
  is_ok (matrix_with_void A0 2%F) = true
  ∧ is_ok (matrix_with_void A0 0%F) = true
  ∧ is_ok (matrix_with_void A0 (Fin (rat (-1) 1))) = true
  ∧ is_ok (matrix_with_void A0 1%F) = true
  ∧ is_ok (matrix_with_void bad_matrix (Fin (rat 3 10))) = true
  ∧ is_ok (matrix_with_void column_matrix (Fin (rat 3 10))) = true.
Proof. repeat split; compute_done. Qed.

(** At p_void = 1 the coupling weights are not finite. *)
Lemma matrix_with_void_p_one :
  matrix_with_void [[1%F]] 1%F = Ok [[1%F; Inf false]; [Inf false; 0%F]].
Proof. compute_done. Qed.

(** Counterexample to C8: the isolated node 2 of [C0] is coupled to the void
    with weight 0 at p_void = 1/4 and at p_void = 1/2 alike. *)
Lemma void_coupling_not_strict :
  ∃ m1 m2,
    matrix_with_void C0 (Fin (rat 1 4)) = Ok m1
    ∧ matrix_with_void C0 (Fin (rat 1 2)) = Ok m2
    ∧ (m1 !!! 3) !!! 2 = 0%F ∧ (m2 !!! 3) !!! 2 = 0%F
    ∧ fltb ((m1 !!! 3) !!! 2) ((m2 !!! 3) !!! 2) = false.
Proof.
  eexists _, _. split; [reflexivity|]. split; [reflexivity|].
  repeat split; compute_done.
Qed.

(** ** Rounding to a grid *)

Lemma round_grid_rounding : rounding round_grid.
Proof.
  split; [|compute_done..].
  intros x y Hxy. unfold round_grid. apply fleb_fin.
  assert (Hf : (Qfloor (x * rat 16 1)%Qc ≤ Qfloor (y * rat 16 1)%Qc)%Z).
  { apply Qfloor_resp_le.
    change ((x * rat 16 1)%Qc ≤ (y * rat 16 1)%Qc)%Qc.
    apply Qcmult_le_compat_r; [done|]. compute_done. }
  unfold Qcle. cbn [this Q2Qc]. rewrite !Qred_correct.
  unfold Qle. cbn [Qnum Qden]. lia.
Qed.

(** Node 0 of [A0] has degree 5.  With rounding down to multiples of 1/16,
    its coupling at p_void = 0.262 is not below the one at p_void = 0.26. *)
Lemma void_coupling_monotone_witness :
  ∃ m1 m2,
    Rounded.matrix_with_void round_grid A0 (Fin (rat 13 50)) = Ok m1
    ∧ Rounded.matrix_with_void round_grid A0 (Fin (rat 131 500)) = Ok m2
    ∧ fleb ((m1 !!! 0) !!! 4) ((m2 !!! 0) !!! 4) = true.
Proof.
  destruct (void_coupling_monotone round_grid A0 (rat 13 50) (rat 131 500)
              (rat 5 1) 0) as (m1 & m2 & H1 & H2 & Hle & _);
    [apply round_grid_rounding|apply A0_square|compute_done..|].
  by exists m1, m2.
Defined.

(** It is the same coupling, 29/16: with arithmetic that rounds, the
    coupling of a node of positive degree need not grow with p_void. *)
Lemma void_coupling_rounding_tie :
  ∃ m1 m2,
    Rounded.matrix_with_void round_grid A0 (Fin (rat 13 50)) = Ok m1
    ∧ Rounded.matrix_with_void round_grid A0 (Fin (rat 131 500)) = Ok m2
    ∧ (m1 !!! 0) !!! 4 = Fin (rat 29 16)
    ∧ (m2 !!! 0) !!! 4 = Fin (rat 29 16).
Proof.
  eexists _, _. split; [reflexivity|]. split; [reflexivity|].
  split; compute_done.
Qed.

(** ** The solver *)

(** The unweighted variant on [A0] returns the vector of the formula. *)
Lemma GMFPT_unweighted_formula_witness :
  GMFPT_theory (eig_A0 no_flip) A0 false
  = Ok (Fin <$> (unweighted_formula 4 A0q (sorted_eigenvalues w0)
                   (sorted_eigenvectors w0 vr0) <$> seq 0 4)).
Proof.
  apply (GMFPT_unweighted_formula (eig_A0 no_flip) A0q w0 vr0).
  - apply A0_square.
  - simpl. lia.
  - compute_done.
  - apply A0_eig_shape.
  - apply A0_retained_nonzero.
Defined.

(** C1 on the graph [A0].  Whatever signs the eigen-solver gives the
    eigenvectors, the weighted variant does not return the vector of the
    formula.  With the eigenvectors as in [vr0] it returns
    15139/2916, 1027/324, 5731/2916, 6859/2916, where the formula gives
    1747/324, 715/324, 307/324, 667/324. *)
Theorem GMFPT_weighted_departs (s0 s1 s2 s3 : bool) :
  let formula :=
    weighted_formula 4 A0q (sorted_eigenvalues w0)
      (sorted_eigenvectors w0 vr0) <$> seq 0 4 in
  formula = [rat 1747 324; rat 715 324; rat 307 324; rat 667 324]
  ∧ GMFPT_theory (eig_A0 no_flip) A0 true
    = Ok (Fin <$> [rat 15139 2916; rat 1027 324; rat 5731 2916; rat 6859 2916])
  ∧ is_ok (GMFPT_theory (eig_A0 [s0; s1; s2; s3]) A0 true) = true
  ∧ GMFPT_theory (eig_A0 [s0; s1; s2; s3]) A0 true ≠ Ok (Fin <$> formula).
Proof.
  cbn zeta. split; [compute_done|]. split; [compute_done|].
  destruct s0, s1, s2, s3; split; compute_done.
Qed.

(** The value the source computes in the weighted variant changes with the
    sign of an eigenvector; in the unweighted variant it does not. *)
Lemma GMFPT_weighted_sign_dependent :
  GMFPT_theory (eig_A0 [false; false; true; false]) A0 true
  ≠ GMFPT_theory (eig_A0 no_flip) A0 true
  ∧ GMFPT_theory (eig_A0 [false; false; true; false]) A0 false
    = GMFPT_theory (eig_A0 no_flip) A0 false.
Proof. split; compute_done. Qed.

(** Counterexample to C5: on two disjoint edges, whose Laplacian has the
    eigenvalue 0 twice, the solver raises nothing and returns a vector, of
    infinities, in both variants. *)
Lemma GMFPT_disconnected_returns :
  sorted_eigenvalues wB !!! 0 = 0%Qc ∧ sorted_eigenvalues wB !!! 1 = 0%Qc
  ∧ GMFPT_theory eig_B0 (fmat B0q) true
    = Ok [Inf false; Inf false; Inf false; Inf false]
  ∧ GMFPT_theory eig_B0 (fmat B0q) false
    = Ok [Inf false; Inf false; Inf false; Inf false].
Proof. repeat split; compute_done. Qed.

(** The retained eigenvalue of index 1 of two disjoint edges is zero. *)
Lemma GMFPT_zero_eigenvalue_witness :
  ∃ T, GMFPT_theory eig_B0 (fmat B0q) true = Ok T
    ∧ Forall (λ t, is_finite t = false) T.
Proof.
  destruct (GMFPT_zero_eigenvalue eig_B0 (fmat B0q) wB vrB true 1)
    as (T & HT & _ & Hinf).
  - reflexivity.
  - reflexivity.
  - simpl. lia.
  - compute_done.
  - by exists T.
Defined.



(** ** The store *)

(** A store that holds [A0] only: after either call it still holds [A0] at
    the same reference. *)
Lemma inputs_not_mutated_witness :
  let h := [Store.Mat A0] in
  (Store.matrix_with_void 0 (Fin (rat 3 10)) h).2 !! 0 = Some (Store.Mat A0)
  ∧ (Store.GMFPT_theory (eig_A0 no_flip) 0 true h).2 !! 0
    = Some (Store.Mat A0).
Proof.
  cbn zeta.
  destruct (inputs_not_mutated (eig_A0 no_flip) [Store.Mat A0] 0 A0
              (Fin (rat 3 10)) true eq_refl) as [Hm Hs].
  destruct (Store.matrix_with_void 0 (Fin (rat 3 10)) [Store.Mat A0])
    as [r1 h1].
  destruct (Store.GMFPT_theory (eig_A0 no_flip) 0 true [Store.Mat A0])
    as [r2 h2].
  destruct Hm as [Hm _]. destruct Hs as [Hs _].
  split; [by apply Hm|by apply Hs].
Defined.


(** * Further properties of the code *)

(** ** The augmenter: degrees *)

Lemma list_eq_total (x y : vector) :
  length x = length y → (∀ j, j < length x → x !!! j = y !!! j) → x = y.
Proof.
  intros Hlen H. apply (list_eq_same_length _ _ (length x)); [done..|].
  intros j a b Hj Ha Hb.
  rewrite <- (list_lookup_total_correct _ _ _ Ha),
    <- (list_lookup_total_correct _ _ _ Hb). by apply H.
Qed.

Lemma square_row (M : matrix) i :
  square M → i < length M → length (M !!! i) = length M.
Proof.
  intros H Hi. unfold square in H. rewrite Forall_lookup in H.
  apply (H i). by apply list_lookup_lookup_total_lt.
Qed.




Lemma one_minus_neq_0 (p : Qc) : p ≠ 1%Qc → (1 - p)%Qc ≠ 0%Qc.
Proof.
  intros Hp H. apply Hp. symmetry.
  rewrite <- (Qcplus_0_l p), <- H. ring.
Qed.

Lemma fmat_square (Mq : list (list Qc)) : square Mq → square (fmat Mq).
Proof.
  intros Hsq. unfold square, fmat in *. rewrite Forall_fmap, length_fmap.
  eapply Forall_impl; [exact Hsq|]. intros row Hrow. simpl.
  by rewrite length_fmap.
Qed.


(** ** The solver: outcomes *)

Lemma fmap_length_seq {A} (f : nat → A) n : length (f <$> seq 0 n) = n.
Proof. by rewrite length_fmap, length_seq. Qed.

Lemma GMFPT_theory_ok eig (A : matrix) w vr (weighted : bool) :
  laplacian A ≫= eig = Ok (w, vr) →
  weighted = true ∨ length A ≠ 1 →
  ∃ T, GMFPT_theory eig A weighted = Ok T ∧ length T = length A.
Proof.
  intros Heig Hcase.
  destruct (laplacian A) as [L|] eqn:HL; [|done].
  cbn [mbind result_bind] in Heig.
  rewrite (GMFPT_theory_unfold eig _ L w vr weighted HL Heig). cbn zeta.
  destruct weighted; cbn [negb].
  - eexists. split; [done|]. by rewrite length_fmap, fmap_length_seq.
  - destruct Hcase as [|HN]; [done|].
    rewrite py_truediv_nat by done. cbn [mbind result_bind].
    eexists. split; [done|]. by rewrite length_fmap, fmap_length_seq.
Qed.

(** X3.  When the eigen-solver returns, with one eigenvalue and one
    eigenvector per node, the solver returns a vector with one entry per
    node, except in the unweighted variant on a single node.  Nothing in
    the spectrum or in the weights makes it raise. *)
Theorem GMFPT_theory_returns eig (A : matrix) w vr (weighted : bool) :
  laplacian A ≫= eig = Ok (w, vr) →
  eig_shape (length A) w vr →
  weighted = true ∨ length A ≠ 1 →
  ∃ T, GMFPT_theory eig A weighted = Ok T ∧ length T = length A.
Proof. intros Heig _. by apply (GMFPT_theory_ok eig A w vr). Qed.

(** X4.  The errors of the solver.  With an eigen-solver that returns one
    eigenvalue and one eigenvector per node whenever it returns, an
    exception of the solver is either the one raised while the Laplacian is
    formed and decomposed, or the ZeroDivisionError of the unweighted
    variant on a single node. *)
Theorem GMFPT_theory_raises eig (A : matrix) (weighted : bool) (e : exn) :
  (∀ w vr, laplacian A ≫= eig = Ok (w, vr) → eig_shape (length A) w vr) →
  GMFPT_theory eig A weighted = Raise e →
  laplacian A ≫= eig = Raise e
  ∨ (e = ZeroDivisionError ∧ weighted = false ∧ length A = 1).
Proof.
  intros _ Hr.
  destruct (laplacian A ≫= eig) as [[w vr]|e'] eqn:Heig.
  - right. destruct (decide (weighted = true ∨ length A ≠ 1)) as [Hc|Hc].
    + destruct (GMFPT_theory_ok eig A w vr weighted Heig Hc) as (T & HT & _).
      congruence.
    + assert (weighted = false) as -> by (destruct weighted; naive_solver).
      assert (length A = 1) as HN by (destruct (decide (length A = 1)); naive_solver).
      split; [|done].
      destruct (laplacian A) as [L|] eqn:HL; [|done].
      cbn [mbind result_bind] in Heig.
      rewrite (GMFPT_theory_unfold eig _ L w vr false HL Heig) in Hr.
      cbn zeta in Hr. cbn [negb] in Hr. rewrite HN in Hr.
      by injection Hr.
  - left. unfold GMFPT_theory in Hr. fold (laplacian A) in Hr.
    destruct (laplacian A) as [L|e'']; cbn [mbind result_bind] in *.
    + destruct (eig L) as [[w vr]|?]; cbn [mbind result_bind] in *; congruence.
    + congruence.
Qed.

(** X5.  The two functions compose.  The augmented matrix of a square base
    is square, so its Laplacian is formed without a shape error, and when
    the eigen-solver returns N + 1 eigenvalues and eigenvectors, the
    weighted variant returns one time per node of the base and one for the
    void. *)
Theorem augment_then_solve eig (mat0 : matrix) (p_void : np_float) :
  square mat0 →
  ∃ mat, matrix_with_void mat0 p_void = Ok mat
    ∧ is_ok (laplacian mat) = true
    ∧ ∀ w vr, laplacian mat ≫= eig = Ok (w, vr) →
        eig_shape (length mat0 + 1) w vr →
        ∃ T, GMFPT_theory eig mat true = Ok T ∧ length T = length mat0 + 1.
Proof.
  intros Hsq.
  destruct (matrix_with_void_layout mat0 p_void Hsq)
    as (mat & Hmat & Hlen & Hsqm & _).
  exists mat. split; [done|]. split; [by apply laplacian_square|].
  intros w vr Heig _.
  destruct (GMFPT_theory_ok eig mat w vr true Heig) as (T & HT & HlT);
    [by left|].
  exists T. split; [done|]. by rewrite HlT.
Qed.

(** ** The solver: the signs of the eigenvectors *)

Lemma sg_square s : (sg s * sg s = 1)%Qc.
Proof. destruct s; unfold sg; ring. Qed.

Lemma re_flip s z : re (flip s z) = (sg s * re z)%Qc.
Proof. destruct s; unfold flip, sg; simpl; ring. Qed.

Lemma flip_default s : flip s inhabitant = inhabitant.
Proof.
  destruct s; [|done]. unfold flip. simpl. f_equal; ring.
Qed.

Lemma column_flip signs vr k :
  column (flip_columns signs vr) k
  = flip (default false (signs !! k)) <$> column vr k.
Proof.
  unfold column, flip_columns. rewrite <- !list_fmap_compose.
  apply list_fmap_ext. intros _ row _. simpl.
  rewrite !list_lookup_total_alt, list_lookup_imap.
  destruct (row !! k); simpl; [done|]. symmetry. apply flip_default.
Qed.

Lemma sorted_eigenvectors_flip w vr signs i :
  ∃ σ : Qc, (σ * σ = 1)%Qc
    ∧ sorted_eigenvectors w (flip_columns signs vr) !!! i
      = Qcmult σ <$> sorted_eigenvectors w vr !!! i.
Proof.
  unfold sorted_eigenvectors.
  rewrite !list_lookup_total_alt, !list_lookup_fmap.
  destruct (np_argsort w !! i) as [k|]; simpl.
  - exists (sg (default false (signs !! k))). split; [apply sg_square|].
    rewrite column_flip, <- !list_fmap_compose.
    apply list_fmap_ext. intros _ z _. simpl. apply re_flip.
  - exists 1%Qc. split; [ring|done].
Qed.

Lemma dot_scale (σ : Qc) (x d : list Qc) :
  qsum (zip_with Qcmult (Qcmult σ <$> x) d)
  = (σ * qsum (zip_with Qcmult x d))%Qc.
Proof.
  revert d. induction x as [|a x IH]; intros [|b d]; simpl; try ring.
  change (qsum ((σ * a * b)%Qc :: zip_with Qcmult (Qcmult σ <$> x) d))
    with (σ * a * b + qsum (zip_with Qcmult (Qcmult σ <$> x) d))%Qc.
  change (qsum ((a * b)%Qc :: zip_with Qcmult x d))
    with (a * b + qsum (zip_with Qcmult x d))%Qc.
  rewrite IH. ring.
Qed.

Lemma np_dot_lookup (vq : list (list Qc)) (dq : list Qc) i :
  np_dot (fmat vq) (Fin <$> dq) !!! i
  = Fin (qsum (zip_with Qcmult (vq !!! i) dq)).
Proof.
  rewrite np_dot_fmat, lookup_total_fin. f_equal.
  rewrite !list_lookup_total_alt, list_lookup_fmap.
  by destruct (vq !! i).
Qed.

Lemma unweighted_term_flip (e : Qc) (l : vector) (dq : list Qc)
    (vq vq' : list (list Qc)) (i j : nat) :
  (∃ σ : Qc, (σ * σ = 1)%Qc ∧ vq' !!! i = Qcmult σ <$> vq !!! i) →
  unweighted_term (Fin e) l (np_dot (fmat vq') (Fin <$> dq)) (fmat vq') i j
  = unweighted_term (Fin e) l (np_dot (fmat vq) (Fin <$> dq)) (fmat vq) i j.
Proof.
  intros (σ & Hσ & Hrow). unfold unweighted_term.
  rewrite !np_dot_lookup, !lookup_total_fmat, Hrow, dot_scale, scaled_lookup.
  f_equal. unfold fpow2, fmul, fsub, fneg, fadd. f_equal.
  set (v := (vq !!! i) !!! j). set (x := qsum (zip_with Qcmult (vq !!! i) dq)).
  replace (σ * v * (σ * v))%Qc with (σ * σ * (v * v))%Qc by ring.
  replace (σ * v * (σ * x))%Qc with (σ * σ * (v * x))%Qc by ring.
  rewrite Hσ. ring.
Qed.

Lemma GMFPT_unweighted_flip eig eig' (Aq : list (list Qc)) w vr signs :
  laplacian (fmat Aq) ≫= eig = Ok (w, vr) →
  laplacian (fmat Aq) ≫= eig' = Ok (w, flip_columns signs vr) →
  GMFPT_theory eig' (fmat Aq) false = GMFPT_theory eig (fmat Aq) false.
Proof.
  intros Heig Heig'.
  destruct (laplacian (fmat Aq)) as [L|] eqn:HL; [|done].
  cbn [mbind result_bind] in Heig, Heig'.
  rewrite (GMFPT_theory_unfold eig _ L w vr false HL Heig).
  rewrite (GMFPT_theory_unfold eig' _ L w _ false HL Heig').
  cbn zeta. cbn [negb].
  destruct (py_truediv _ _) as [c|]; [|done]. cbn [mbind result_bind].
  do 2 f_equal. apply list_fmap_ext. intros _ j _. f_equal.
  apply list_fmap_ext. intros _ i _.
  rewrite total_weight_fin, np_sum_axis1_fmat.
  apply unweighted_term_flip, sorted_eigenvectors_flip.
Qed.

(** X6.  The unweighted variant does not depend on the sign the
    eigen-solver gives each eigenvector: on a matrix with finite weights,
    two eigen-solvers whose eigenvectors differ in sign only lead to the same
    result. *)
Theorem GMFPT_unweighted_sign_free eig eig' (Aq : list (list Qc)) w vr signs :
  laplacian (fmat Aq) ≫= eig = Ok (w, vr) →
  laplacian (fmat Aq) ≫= eig' = Ok (w, flip_columns signs vr) →
  GMFPT_theory eig' (fmat Aq) false = GMFPT_theory eig (fmat Aq) false.
Proof. apply GMFPT_unweighted_flip. Qed.

(** ** The solver: the order of the eigenvalues *)

Lemma cle_spec (a b : complex) :
  cle a b = true ↔ (re a < re b)%Qc ∨ (re a = re b ∧ (im a ≤ im b)%Qc).
Proof.
  unfold cle. destruct (re a ?= re b)%Qc eqn:Hre.
  - apply Qceq_alt in Hre. split.
    + intros H. right. split; [done|]. apply Qcle_alt.
      intros Hgt. by rewrite Hgt in H.
    + intros [Hlt|[_ Hle]].
      * rewrite Hre in Hlt. by apply Qclt_not_eq in Hlt.
      * pose proof (proj1 (Qcle_alt _ _) Hle) as Hc.
        by destruct (im a ?= im b)%Qc.
  - apply Qclt_alt in Hre. split; [by left|done].
  - apply Qcgt_alt in Hre. split; [done|].
    intros [H|[H _]].
    + exfalso. apply (Qclt_not_le _ _ H). apply Qclt_le_weak. exact Hre.
    + rewrite H in Hre. by apply (Qclt_not_eq (re b) (re b)) in Hre.
Qed.

Lemma cle_re (a b : complex) : cle a b = true → (re a ≤ re b)%Qc.
Proof.
  intros [H|[-> _]]%cle_spec; [by apply Qclt_le_weak|apply Qcle_refl].
Qed.

Lemma cle_total (a b : complex) : cle a b = false → cle b a = true.
Proof.
  intros H. apply cle_spec.
  destruct (Qc_dec (re a) (re b)) as [[Hlt|Hgt]|Heq].
  - assert (cle a b = true) by (apply cle_spec; by left). congruence.
  - by left.
  - right. split; [done|].
    destruct (Qclt_le_dec (im b) (im a)) as [Hi|Hi]; [by apply Qclt_le_weak|].
    assert (cle a b = true) by (apply cle_spec; by right). congruence.
Qed.

Lemma cle_trans (a b c : complex) :
  cle a b = true → cle b c = true → cle a c = true.
Proof.
  rewrite !cle_spec. intros [H1|[H1 H1']] [H2|[H2 H2']].
  - left. by etrans.
  - left. by rewrite <- H2.
  - left. by rewrite H1.
  - right. split; [congruence|]. by etrans.
Qed.

Lemma insert_index_perm w i s : insert_index w i s ≡ₚ i :: s.
Proof.
  induction s as [|k s IH]; simpl; [done|].
  case_match; [|done]. rewrite IH. apply Permutation_swap.
Qed.

Lemma insert_index_sorted w i s :
  StronglySorted (λ a b, cle (w !!! a) (w !!! b) = true) s →
  StronglySorted (λ a b, cle (w !!! a) (w !!! b) = true) (insert_index w i s).
Proof.
  induction s as [|k s IH]; intros Hs; simpl.
  - repeat constructor.
  - apply StronglySorted_inv in Hs as [Hs Hk].
    destruct (cle (w !!! k) (w !!! i)) eqn:Hki.
    + constructor; [by apply IH|].
      rewrite insert_index_perm. by constructor.
    + apply cle_total in Hki. constructor; [by constructor|].
      constructor; [done|].
      eapply Forall_impl; [exact Hk|]. intros x Hx. simpl in *.
      by eapply cle_trans.
Qed.

Lemma np_argsort_sorted w :
  StronglySorted (λ a b, cle (w !!! a) (w !!! b) = true) (np_argsort w)
  ∧ np_argsort w ≡ₚ seq 0 (length w).
Proof.
  unfold np_argsort.
  assert (H : ∀ idx s,
    StronglySorted (λ a b, cle (w !!! a) (w !!! b) = true) s →
    StronglySorted (λ a b, cle (w !!! a) (w !!! b) = true)
      (foldl (λ s i, insert_index w i s) s idx)
    ∧ foldl (λ s i, insert_index w i s) s idx ≡ₚ s ++ idx).
  { induction idx as [|i idx IH]; intros s Hs; simpl.
    - split; [done|]. by rewrite app_nil_r.
    - destruct (IH (insert_index w i s)) as [H1 H2];
        [by apply insert_index_sorted|].
      split; [done|]. rewrite H2, insert_index_perm. simpl.
      apply Permutation_middle. }
  destruct (H (seq 0 (length w)) []) as [H1 H2]; [constructor|].
  split; [done|]. by rewrite H2.
Qed.

Lemma sorted_eigenvalues_ordered (w : list complex) :
  StronglySorted Qcle (sorted_eigenvalues w)
  ∧ sorted_eigenvalues w ≡ₚ re <$> w.
Proof.
  destruct (np_argsort_sorted w) as [Hs Hp]. unfold sorted_eigenvalues. split.
  - clear Hp. induction Hs as [|k s Hs IH Hk].
    + apply SSorted_nil.
    + rewrite fmap_cons. apply SSorted_cons; [done|].
      apply Forall_fmap. eapply Forall_impl; [exact Hk|].
      intros x Hx. simpl. by apply cle_re.
  - rewrite Hp. replace (re <$> w) with ((λ i, re (w !!! i)) <$> seq 0 (length w));
      [done|].
    apply (list_eq_same_length _ _ (length w));
      [by rewrite length_fmap|by rewrite length_fmap, length_seq|].
    intros i a b Hi Ha Hb.
    rewrite list_lookup_fmap, lookup_seq_lt in Ha by done. simpl in Ha.
    rewrite list_lookup_fmap in Hb.
    rewrite list_lookup_total_alt in Ha.
    destruct (w !! i); simpl in *; congruence.
Qed.

(** X7.  The eigenvalues the loop reads, [l], are the real parts of the
    eigenvalues returned by the eigen-solver rearranged in ascending order:
    none is lost or repeated, and index 0, which the loop skips, holds a
    smallest one. *)
Theorem sorted_eigenvalues_ascending (w : list complex) :
  StronglySorted Qcle (sorted_eigenvalues w)
  ∧ sorted_eigenvalues w ≡ₚ re <$> w
  ∧ Forall (λ x, (sorted_eigenvalues w !!! 0%nat ≤ x)%Qc) (re <$> w).
Proof.
  destruct (sorted_eigenvalues_ordered w) as [Hs Hp].
  split; [done|]. split; [done|].
  rewrite <- Hp. destruct (sorted_eigenvalues w) as [|x l]; [constructor|].
  apply StronglySorted_inv in Hs as [_ Hx].
  constructor; [apply Qcle_refl|done].
Qed.

(** ** The decay matrix *)

Lemma alter_alter_same {A} (f g : A → A) (l : list A) i :
  alter f i (alter g i l) = alter (f ∘ g) i l.
Proof.
  revert i. induction l as [|x l IH]; intros [|i]; [done..|].
  change (x :: alter f i (alter g i l) = x :: alter (f ∘ g) i l).
  by rewrite IH.
Qed.

Lemma foldl_alter_rows (g : nat → vector → vector) (js : list nat) (M : matrix) :
  NoDup js →
  length (foldl (λ m i, alter (g i) i m) M js) = length M
  ∧ ∀ k, k < length M →
      foldl (λ m i, alter (g i) i m) M js !!! k
      = if decide (k ∈ js) then g k (M !!! k) else M !!! k.
Proof.
  revert M. induction js as [|j js IH]; intros M Hnd; cbn [foldl].
  - split; [done|]. intros k _. rewrite decide_False; [done|apply not_elem_of_nil].
  - apply NoDup_cons in Hnd as [Hj Hnd].
    destruct (IH (alter (g j) j M) Hnd) as [Hlen Hk].
    rewrite length_alter in Hlen, Hk.
    split; [done|]. intros k HkM. rewrite Hk by done.
    rewrite list_lookup_total_alter.
    destruct (decide (k = j)) as [->|Hne].
    + rewrite decide_False by done.
      rewrite decide_True by done. rewrite decide_True by left. done.
    + rewrite (decide_False (P := j = k ∧ _)) by (intros [? _]; by subst).
      destruct (decide (k ∈ js)).
      * rewrite decide_True by (by right). done.
      * rewrite decide_False; [done|]. by intros [?|?]%elem_of_cons.
Qed.

Lemma decay_profile_length np_power n alpha :
  length (decay_profile np_power n alpha) = n - 1.
Proof. unfold decay_profile. by rewrite !length_fmap, length_seq. Qed.

Lemma np_zeros_length n : length (np_zeros n) = n.
Proof. unfold np_zeros. by rewrite length_replicate. Qed.

(** Row [i] of the decay matrix, as the two assignments leave it. *)
Lemma decay_row_lookup (ps : vector) (n i j : nat) :
  length ps = n - 1 → i < n → j < n →
  imap (λ j x, if decide (j < i) then reverse (take i ps) !!! j else x)
    (imap (λ j x, if decide (i + 1 ≤ j)
                  then take (n - i - 1) ps !!! (j - (i + 1)) else x)
       (np_zeros n)) !!! j
  = if decide (i = j) then 0%F else ps !!! (i `max` j - i `min` j - 1).
Proof.
  intros Hps Hi Hj.
  rewrite imap_entry by (by rewrite length_imap, np_zeros_length).
  rewrite imap_entry by (by rewrite np_zeros_length).
  destruct (decide (j < i)) as [Hlt|Hge].
  - rewrite decide_False by lia.
    rewrite list_lookup_total_alt, reverse_lookup
      by (rewrite length_take_le; lia).
    rewrite length_take_le by lia.
    rewrite lookup_take_lt by lia.
    rewrite <- list_lookup_total_alt. f_equal. lia.
  - destruct (decide (i + 1 ≤ j)) as [Hgt|Hle].
    + rewrite decide_False by lia.
      rewrite lookup_total_take_lt by lia. f_equal. lia.
    + assert (i = j) as -> by lia. rewrite decide_True by done.
      unfold np_zeros. by rewrite lookup_total_replicate_2.
Qed.

Lemma uniform_decay_layout np_power (n : nat) (alpha : np_float) :
  length (uniform_decay np_power n alpha) = n
  ∧ (∀ i, i < n → length (uniform_decay np_power n alpha !!! i) = n)
  ∧ ∀ i j, i < n → j < n →
      (uniform_decay np_power n alpha !!! i) !!! j
      = if decide (i = j) then 0%F
        else decay_profile np_power n alpha !!! (i `max` j - i `min` j - 1).
Proof.
  unfold uniform_decay. cbn zeta. fold (decay_profile np_power n alpha).
  set (ps := decay_profile np_power n alpha).
  set (g := λ i : nat,
    imap (λ j (x : np_float), if decide (j < i) then reverse (take i ps) !!! j else x)
    ∘ imap (λ j (x : np_float), if decide (i + 1 ≤ j)
                  then take (n - i - 1) ps !!! (j - (i + 1)) else x)).
  assert (Hstep : ∀ js M,
    foldl (λ m i,
      assign_row_upto i i
        (assign_row_from i (i + 1) m (take (n - i - 1) ps))
        (reverse (take i ps))) M js
    = foldl (λ m i, alter (g i) i m) M js).
  { induction js as [|i js IH]; intros M; cbn [foldl]; [done|].
    rewrite IH. f_equal. unfold assign_row_upto, assign_row_from.
    apply alter_alter_same. }
  rewrite Hstep.
  destruct (foldl_alter_rows g (seq 0 n) (np_zeros2 n n) (NoDup_seq 0 n))
    as [Hlen Hk].
  rewrite np_zeros2_length in Hlen, Hk.
  assert (Hrow : ∀ i, i < n →
    foldl (λ m i, alter (g i) i m) (np_zeros2 n n) (seq 0 n) !!! i
    = g i (np_zeros n)).
  { intros i Hi. rewrite Hk by done.
    rewrite decide_True by (apply elem_of_seq; lia).
    unfold np_zeros2. by rewrite lookup_total_replicate_2. }
  split; [done|]. split.
  - intros i Hi. rewrite Hrow by done. unfold g. simpl.
    by rewrite !length_imap, np_zeros_length.
  - intros i j Hi Hj. rewrite Hrow by done. unfold g. simpl.
    apply decay_row_lookup; [apply decay_profile_length|done..].
Qed.

(** X8.  The decay matrix is n x n and its entry [i,j] depends on the
    distance |i - j| only: 0 on the diagonal, and the entry of the
    normalized profile at index |i - j| - 1 off it. *)
Theorem uniform_decay_by_distance np_power (n : nat) (alpha : np_float)
    (i j : nat) :
  i < n → j < n →
  length (uniform_decay np_power n alpha) = n
  ∧ length (uniform_decay np_power n alpha !!! i) = n
  ∧ (uniform_decay np_power n alpha !!! i) !!! j
    = if decide (i = j) then 0%F
      else decay_profile np_power n alpha !!! (i `max` j - i `min` j - 1).
Proof.
  intros Hi Hj.
  destruct (uniform_decay_layout np_power n alpha) as (H1 & H2 & H3). auto.
Qed.

Lemma uniform_decay_square np_power n alpha :
  square (uniform_decay np_power n alpha).
Proof.
  destruct (uniform_decay_layout np_power n alpha) as (H1 & H2 & _).
  unfold square. rewrite Forall_lookup. intros i row Hrow.
  pose proof (lookup_lt_Some _ _ _ Hrow) as Hi. rewrite H1 in Hi |- *.
  rewrite <- (H2 i Hi). f_equal. symmetry.
  by apply list_lookup_total_correct.
Qed.

Lemma uniform_decay_sym np_power n alpha :
  symmetric (uniform_decay np_power n alpha).
Proof.
  destruct (uniform_decay_layout np_power n alpha) as (H1 & _ & H3).
  intros i j Hi Hj. rewrite H1 in Hi, Hj. rewrite !H3 by done.
  repeat case_decide; try done; try lia. f_equal. lia.
Qed.

(** X9.  Whatever the size, the exponent and the power function, the decay
    matrix is square and symmetric: it is the weight matrix of an undirected
    graph, as the augmenter and the solver expect. *)
Theorem uniform_decay_symmetric np_power (n : nat) (alpha : np_float) :
  square (uniform_decay np_power n alpha)
  ∧ symmetric (uniform_decay np_power n alpha).
Proof. split; [apply uniform_decay_square|apply uniform_decay_sym]. Qed.

(** ** Adding a domain *)

Lemma iadd_block_in_range (s e : nat) (mat src : matrix) :
  square mat → square src → s ≤ e → e ≤ length mat → length src = e - s →
  ∃ mat', iadd_block s e mat src = Ok mat'
    ∧ length mat' = length mat
    ∧ (∀ i, i < length mat → length (mat' !!! i) = length mat)
    ∧ ∀ i j, i < length mat → j < length mat →
        (mat' !!! i) !!! j
        = if decide ((s ≤ i < e) ∧ (s ≤ j < e))
          then ((mat !!! i) !!! j + (src !!! (i - s)%nat) !!! (j - s)%nat)%F
          else (mat !!! i) !!! j.
Proof.
  intros Hsq Hsrc Hse He Hn. unfold iadd_block.
  rewrite (square_shape _ Hsq), (square_shape _ Hsrc), Hn.
  rewrite decide_True by (split; left; lia).
  eexists. split; [done|]. split; [by rewrite length_imap|]. split.
  - intros i Hi. rewrite imap_row by done.
    case_decide; rewrite ?length_imap; by apply square_row.
  - intros i j Hi Hj. rewrite imap_row by done.
    destruct (decide (s ≤ i < e)) as [Hie|Hie].
    + rewrite imap_entry by (by rewrite square_row).
      destruct (decide (s ≤ j < e)) as [Hje|Hje].
      * rewrite decide_True by done. f_equal.
        apply bget_in_range; rewrite (square_shape _ Hsrc), Hn; simpl; lia.
      * rewrite decide_False; [done|]. by intros [_ ?].
    + rewrite decide_False; [done|]. by intros [? _].
Qed.

Lemma add_tad_in_range np_power (mat : matrix) (s e : nat) (alpha : np_float) :
  square mat → s ≤ e → e ≤ length mat →
  ∃ mat', add_tad np_power mat s e alpha = Ok mat'
    ∧ length mat' = length mat
    ∧ (∀ i, i < length mat → length (mat' !!! i) = length mat)
    ∧ ∀ i j, i < length mat → j < length mat →
        (mat' !!! i) !!! j
        = if decide ((s ≤ i < e) ∧ (s ≤ j < e))
          then ((mat !!! i) !!! j
                + (uniform_decay np_power (e - s)%nat alpha !!! (i - s)%nat)
                  !!! (j - s)%nat)%F
          else (mat !!! i) !!! j.
Proof.
  intros Hsq Hse He. unfold add_tad. rewrite decide_False by lia.
  apply iadd_block_in_range; try done.
  - apply uniform_decay_square.
  - by destruct (uniform_decay_layout np_power (e - s) alpha) as [-> _].
Qed.

(** X11.  Within the bounds of a square matrix, [add_tad] leaves the size
    and every entry outside the block [s, e) x [s, e) as they are, and adds
    to each entry inside the block the entry of the decay matrix of size
    e - s at the same place of the block. *)
Theorem add_tad_effect np_power (mat : matrix) (s e : nat) (alpha : np_float) :
  square mat → s ≤ e → e ≤ length mat →
  ∃ mat', add_tad np_power mat s e alpha = Ok mat'
    ∧ length mat' = length mat
    ∧ (∀ i, i < length mat → length (mat' !!! i) = length mat)
    ∧ ∀ i j, i < length mat → j < length mat →
        (mat' !!! i) !!! j
        = if decide ((s ≤ i < e) ∧ (s ≤ j < e))
          then ((mat !!! i) !!! j
                + (uniform_decay np_power (e - s)%nat alpha !!! (i - s)%nat)
                  !!! (j - s)%nat)%F
          else (mat !!! i) !!! j.
Proof. apply add_tad_in_range. Qed.

Lemma add_tad_sym np_power (mat : matrix) (s e : nat) (alpha : np_float) :
  square mat → symmetric mat → s ≤ e → e ≤ length mat →
  ∃ mat', add_tad np_power mat s e alpha = Ok mat'
    ∧ length mat' = length mat ∧ square mat' ∧ symmetric mat'.
Proof.
  intros Hsq Hsym Hse He.
  destruct (add_tad_in_range np_power mat s e alpha Hsq Hse He)
    as (mat' & Hmat' & Hlen & Hrows & Hent).
  exists mat'. split; [done|]. split; [done|]. split.
  { unfold square. rewrite Forall_lookup. intros i row Hrow.
    pose proof (lookup_lt_Some _ _ _ Hrow) as Hi. rewrite Hlen in Hi |- *.
    rewrite <- (Hrows i Hi). f_equal. symmetry.
    by apply list_lookup_total_correct. }
  intros i j Hi Hj. rewrite Hlen in Hi, Hj.
  rewrite !Hent by done.
  destruct (uniform_decay_layout np_power (e - s) alpha) as (Hl & _ & _).
  destruct (decide ((s ≤ i < e) ∧ (s ≤ j < e))) as [[Hie Hje]|Hn].
  - rewrite decide_True by done. f_equal; [by apply Hsym|].
    apply uniform_decay_sym; rewrite Hl; lia.
  - rewrite decide_False by (intros [? ?]; by apply Hn). by apply Hsym.
Qed.

(** X12.  [add_tad] keeps a symmetric matrix symmetric. *)
Theorem add_tad_symmetric np_power (mat : matrix) (s e : nat)
    (alpha : np_float) :
  square mat → symmetric mat → s ≤ e → e ≤ length mat →
  ∃ mat', add_tad np_power mat s e alpha = Ok mat' ∧ symmetric mat'.
Proof.
  intros Hsq Hsym Hse He.
  destruct (add_tad_sym np_power mat s e alpha Hsq Hsym Hse He)
    as (mat' & Hmat' & _ & _ & Hs).
  by exists mat'.
Qed.

(** X13.  The bounds of [add_tad].  An end before the start, or a block of
    two or more sites that reaches beyond the matrix, raises ValueError: the
    first in [np.zeros], the second because the decay matrix cannot be
    broadcast to the clipped slice. *)
Theorem add_tad_out_of_range np_power (mat : matrix) (s e : nat)
    (alpha : np_float) :
  square mat →
  e < s ∨ (length mat < e ∧ 2 ≤ e - s) →
  add_tad np_power mat s e alpha = Raise ValueError.
Proof.
  intros Hsq [Hlt|[Hout Hn]]; unfold add_tad.
  - by rewrite decide_True.
  - rewrite decide_False by lia. unfold iadd_block.
    rewrite (square_shape _ Hsq).
    rewrite (square_shape _ (uniform_decay_square np_power (e - s) alpha)).
    destruct (uniform_decay_layout np_power (e - s) alpha) as [-> _].
    rewrite decide_False; [done|]. intros [[H|H] _]; lia.
Qed.

(** ** In place *)

Lemma run_store_old {B} r a (f : () → Store.prog B) (h l : Store.heap) :
  r < length h →
  (Store.store r a ≫= f) (h ++ l) = f () (<[r := a]> h ++ l).
Proof.
  intros Hr. cbv [mbind Store.prog_bind Store.store].
  by rewrite insert_app_l.
Qed.

Lemma add_tad_run np_power (h : Store.heap) (r : Store.loc)
    (m m' : matrix) (s e : nat) (alpha : np_float) :
  h !! r = Some (Store.Mat m) →
  add_tad np_power m s e alpha = Ok m' →
  InPlace.add_tad np_power r s e alpha (h ++ [])
  = (Ok r, <[r := Store.Mat m']> h
           ++ [Store.Mat (uniform_decay np_power (e - s) alpha)]).
Proof.
  intros Hr Hm. pose proof (lookup_lt_Some _ _ _ Hr) as Hlt.
  unfold InPlace.add_tad, add_tad in *.
  destruct (decide (e < s)); [done|].
  rewrite run_alloc. cbn [length app].
  rewrite (run_load_old _ _ _ _ _ Hr). cbn [Store.as_mat].
  rewrite run_load_new. cbn [lookup_total list_lookup_total Store.as_mat].
  rewrite Hm, run_lift_ok.
  by rewrite run_store_old.
Qed.

(** X14.  [add_tad] works in place.  It returns the reference it was given,
    and after the call the array at that reference holds the matrix with the
    domain added: the caller's matrix is changed.  Every other array of the
    store is as before. *)
Theorem add_tad_in_place np_power (h : Store.heap) (r : Store.loc)
    (m m' : matrix) (s e : nat) (alpha : np_float) :
  h !! r = Some (Store.Mat m) →
  add_tad np_power m s e alpha = Ok m' →
  let '(res, h') := InPlace.add_tad np_power r s e alpha h in
  res = Ok r
  ∧ h' !! r = Some (Store.Mat m')
  ∧ ∀ r' x, r' ≠ r → h !! r' = Some x → h' !! r' = Some x.
Proof.
  intros Hr Hm. pose proof (lookup_lt_Some _ _ _ Hr) as Hlt.
  pose proof (add_tad_run np_power h r m m' s e alpha Hr Hm) as Hrun.
  rewrite app_nil_r in Hrun. rewrite Hrun.
  split; [done|]. split.
  - rewrite lookup_app_l by (by rewrite length_insert).
    by apply list_lookup_insert_eq.
  - intros r' x Hne Hx.
    rewrite lookup_app_l by (rewrite length_insert; by eapply lookup_lt_Some).
    by rewrite list_lookup_insert_ne.
Qed.

(** ** Noise *)

Lemma insert_entry_lookup (M : matrix) (i j a b : nat) (row : vector) (y : np_float) :
  M !! i = Some row → j < length row →
  (<[i := <[j := y]> row]> M !!! a) !!! b
  = if decide (a = i ∧ b = j) then y else (M !!! a) !!! b.
Proof.
  intros Hrow Hj. pose proof (lookup_lt_Some _ _ _ Hrow) as Hi.
  destruct (decide (a = i)) as [->|Hne].
  - rewrite list_lookup_total_insert_eq by done.
    rewrite (list_lookup_total_correct _ _ _ Hrow).
    destruct (decide (b = j)) as [->|Hnb].
    + rewrite decide_True by done. by rewrite list_lookup_total_insert_eq.
    + rewrite decide_False by (by intros [_ ?]).
      by rewrite list_lookup_total_insert_ne.
  - rewrite decide_False by (by intros [? _]).
    by rewrite list_lookup_total_insert_ne.
Qed.

Lemma noise_loop (coords : list (nat * nat)) (M : matrix) (N : nat) :
  length M = N → (∀ i, i < N → length (M !!! i) = N) →
  (∀ p, p ∈ coords → p.1 < N ∧ p.2 < N) →
  ∃ M',
    foldl (λ acc '(i, j),
      M ← acc; row ← M !! i; x ← row !! j;
      Some (<[i := <[j := (x + 1)%F]> row]> M)) (Some M) coords = Some M'
    ∧ length M' = N
    ∧ (∀ i, i < N → length (M' !!! i) = N)
    ∧ ∀ a b, a < N → b < N →
        (M' !!! a) !!! b
        = Nat.iter (hits coords a b) (λ y, (y + 1)%F) ((M !!! a) !!! b).
Proof.
  revert M. induction coords as [|[i j] coords IH]; intros M Hlen Hrows Hin.
  - exists M. done.
  - destruct (Hin (i, j)) as [Hi Hj]; [left|]. simpl in Hi, Hj.
    destruct (lookup_lt_is_Some_2 M i) as [row Hrow]; [lia|].
    assert (Hrl : length row = N).
    { rewrite <- (list_lookup_total_correct _ _ _ Hrow). by apply Hrows. }
    destruct (lookup_lt_is_Some_2 row j) as [x Hx]; [lia|].
    cbn [foldl mbind option_bind]. rewrite Hrow. cbn [mbind option_bind].
    rewrite Hx. cbn [mbind option_bind].
    set (M1 := <[i := <[j := (x + 1)%F]> row]> M).
    assert (Hent1 : ∀ a b, (M1 !!! a) !!! b
              = if decide (a = i ∧ b = j) then (x + 1)%F else (M !!! a) !!! b).
    { intros a b. apply insert_entry_lookup; [done|lia]. }
    destruct (IH M1) as (M' & HM' & Hl' & Hr' & He').
    + unfold M1. by rewrite length_insert.
    + intros a Ha. unfold M1.
      destruct (decide (a = i)) as [->|Hne].
      * rewrite list_lookup_total_insert_eq by lia. by rewrite length_insert.
      * rewrite list_lookup_total_insert_ne by done. by apply Hrows.
    + intros p Hp. apply Hin. by right.
    + exists M'. split; [done|]. split; [done|]. split; [done|].
      intros a b Ha Hb. rewrite He' by done. rewrite Hent1.
      cbn [hits].
      destruct (decide (a = i ∧ b = j)) as [[-> ->]|Hne].
      * rewrite decide_True by done.
        rewrite (list_lookup_total_correct _ _ _ Hrow),
          (list_lookup_total_correct _ _ _ Hx).
        change (1 + hits coords i j) with (S (hits coords i j)).
        by rewrite Nat.iter_succ_r.
      * rewrite decide_False; [done|]. intros [= -> ->]. by apply Hne.
Qed.

Lemma add_noise_entries randint (M : matrix) (n_noise : nat) :
  square M →
  (∀ p, p ∈ randint 0 (length M) n_noise → p.1 < length M ∧ p.2 < length M) →
  ∃ M', add_noise randint M n_noise = Some M'
    ∧ length M' = length M
    ∧ (∀ i, i < length M → length (M' !!! i) = length M)
    ∧ ∀ a b, a < length M → b < length M →
        (M' !!! a) !!! b
        = Nat.iter (hits (randint 0 (length M) n_noise) a b)
            (λ y, (y + 1)%F) ((M !!! a) !!! b).
Proof.
  intros Hsq Hin. unfold add_noise. cbn [shape fst].
  apply noise_loop; [done| |done].
  intros i Hi. by apply square_row.
Qed.

(** X15.  What the noise does.  On a square matrix, with draws inside the
    matrix, [add_noise] leaves the matrix with its size, and each entry
    [a,b] is the entry it was with [+= 1] applied once for each time the
    pair (a,b) was drawn; an entry that was not drawn is as it was. *)
Theorem add_noise_counts randint (M : matrix) (n_noise : nat) :
  square M →
  (∀ p, p ∈ randint 0 (length M) n_noise → p.1 < length M ∧ p.2 < length M) →
  ∃ M', add_noise randint M n_noise = Some M'
    ∧ length M' = length M
    ∧ (∀ i, i < length M → length (M' !!! i) = length M)
    ∧ ∀ a b, a < length M → b < length M →
        (M' !!! a) !!! b
        = Nat.iter (hits (randint 0 (length M) n_noise) a b)
            (λ y, (y + 1)%F) ((M !!! a) !!! b).
Proof. apply add_noise_entries. Qed.

(** X16.  Noise and symmetry.  [add_noise] adds to [M[i,j]] only, not to
    [M[j,i]].  A symmetric matrix stays symmetric when every pair (a,b) was
    drawn as often as (b,a): the two entries then go through the same
    additions. *)
Theorem add_noise_symmetric randint (M : matrix) (n_noise : nat) :
  square M → symmetric M →
  (∀ p, p ∈ randint 0 (length M) n_noise → p.1 < length M ∧ p.2 < length M) →
  (∀ a b, a < length M → b < length M →
     hits (randint 0 (length M) n_noise) a b
     = hits (randint 0 (length M) n_noise) b a) →
  ∃ M', add_noise randint M n_noise = Some M' ∧ symmetric M'.
Proof.
  intros Hsq Hsym Hin Hbal.
  destruct (add_noise_entries randint M n_noise Hsq Hin)
    as (M' & HM' & Hl' & _ & He').
  exists M'. split; [done|].
  intros a b Ha Hb. rewrite Hl' in Ha, Hb.
  by rewrite !He', (Hbal a b), (Hsym a b).
Qed.

(** ** The chain *)

Lemma set_entry_lookup (m : matrix) (i j a b : nat) (x : np_float) :
  i < length m → j < length (m !!! i) →
  (set_entry i j x m !!! a) !!! b
  = if decide (a = i ∧ b = j) then x else (m !!! a) !!! b.
Proof.
  intros Hi Hj. unfold set_entry.
  destruct (lookup_lt_is_Some_2 m i Hi) as [row Hrow].
  rewrite (list_lookup_total_correct _ _ _ Hrow) in Hj.
  assert (alter (<[j := x]>) i m = <[i := <[j := x]> row]> m) as ->.
  { apply list_eq. intros k. destruct (decide (k = i)) as [->|Hne].
    - rewrite list_lookup_alter_eq, Hrow, list_lookup_insert_eq by done. done.
    - by rewrite list_lookup_alter_ne, list_lookup_insert_ne. }
  by apply insert_entry_lookup.
Qed.

Lemma set_entry_length (m : matrix) (i j : nat) (x : np_float) :
  length (set_entry i j x m) = length m.
Proof. unfold set_entry. by rewrite length_alter. Qed.

Lemma set_entry_row_length (m : matrix) (i j a : nat) (x : np_float) :
  length (set_entry i j x m !!! a) = length (m !!! a).
Proof.
  unfold set_entry. rewrite !list_lookup_total_alt.
  destruct (decide (a = i)) as [->|Hne].
  - rewrite list_lookup_alter_eq. destruct (m !! i); simpl; [|done].
    by rewrite length_insert.
  - by rewrite list_lookup_alter_ne.
Qed.

Lemma chain_loop (N k : nat) :
  k ≤ N - 1 →
  let m := foldl (λ m i, set_entry (i - 1) i 1%F (set_entry i (i - 1) 1%F m))
             (np_zeros2 N N) (seq 1 k) in
  length m = N
  ∧ (∀ a, a < N → length (m !!! a) = N)
  ∧ ∀ a b, a < N → b < N →
      (m !!! a) !!! b
      = if decide ((a + 1 = b ∧ b ≤ k) ∨ (b + 1 = a ∧ a ≤ k)) then 1%F else 0%F.
Proof.
  induction k as [|k IH]; intros Hk; cbv zeta.
  - simpl. split; [apply np_zeros2_length|].
    split; [intros; by apply np_zeros2_row_length|].
    intros a b Ha Hb. rewrite np_zeros2_lookup by done.
    rewrite decide_False; [done|lia].
  - rewrite seq_S, foldl_app. cbn [foldl].
    destruct IH as (Hl & Hr & He); [lia|].
    set (m := foldl _ _ (seq 1 k)) in *.
    replace (1 + k - 1) with k by lia. replace (1 + k) with (S k) by lia.
    split; [by rewrite !set_entry_length|].
    split; [intros a Ha; rewrite !set_entry_row_length; by apply Hr|].
    intros a b Ha Hb.
    rewrite set_entry_lookup.
    2: { rewrite set_entry_length. lia. }
    2: { rewrite set_entry_row_length, Hr; lia. }
    rewrite set_entry_lookup, He by (rewrite ?Hr; lia).
    repeat case_decide; try done; lia.
Qed.

Lemma chain0_entries (N a b : nat) :
  a < N → b < N →
  (chain0 N !!! a) !!! b = if decide (a + 1 = b ∨ b + 1 = a) then 1%F else 0%F.
Proof.
  intros Ha Hb. destruct (chain_loop N (N - 1)) as (_ & _ & He); [done|].
  unfold chain0. rewrite He by done.
  repeat case_decide; try done; lia.
Qed.

Lemma chain0_length (N : nat) : length (chain0 N) = N.
Proof. by destruct (chain_loop N (N - 1)) as (? & _ & _). Qed.

Lemma chain0_row_length (N a : nat) : a < N → length (chain0 N !!! a) = N.
Proof.
  intros Ha. destruct (chain_loop N (N - 1)) as (_ & Hr & _); [done|].
  by apply Hr.
Qed.

Lemma path_adjacency_length (N : nat) : length (path_adjacency N) = N.
Proof. unfold path_adjacency. by rewrite length_fmap, length_seq. Qed.

Lemma path_adjacency_row (N a : nat) :
  a < N →
  path_adjacency N !!! a
  = (λ b, if decide (a + 1 = b ∨ b + 1 = a) then 1%Qc else 0%Qc) <$> seq 0 N.
Proof.
  intros Ha. unfold path_adjacency. apply list_lookup_total_correct.
  rewrite list_lookup_fmap, lookup_seq_lt by done. done.
Qed.

Lemma chain0_path (N : nat) : chain0 N = fmat (path_adjacency N).
Proof.
  assert (Hlen : length (fmat (path_adjacency N)) = N).
  { unfold fmat. by rewrite length_fmap, path_adjacency_length. }
  apply (list_eq_same_length _ _ N); [done|apply chain0_length|].
  intros a r1 r2 Ha H1 H2.
  apply list_lookup_total_correct in H1, H2. subst r1 r2.
  assert (Hr2 : fmat (path_adjacency N) !!! a
                = Fin <$> path_adjacency N !!! a).
  { unfold fmat. apply list_lookup_total_correct.
    rewrite list_lookup_fmap.
    rewrite (list_lookup_lookup_total_lt (path_adjacency N) a)
      by (by rewrite path_adjacency_length). done. }
  apply list_eq_total.
  - rewrite chain0_row_length, Hr2, length_fmap, path_adjacency_row by done.
    by rewrite length_fmap, length_seq.
  - rewrite chain0_row_length by done. intros b Hb.
    rewrite chain0_entries, lookup_total_fmat, path_adjacency_row by done.
    rewrite (list_lookup_total_correct _ b
      (if decide (a + 1 = b ∨ b + 1 = a) then 1%Qc else 0%Qc)).
    + by case_decide.
    + by rewrite list_lookup_fmap, lookup_seq_lt.
Qed.

Lemma path_adjacency_square (N : nat) : square (path_adjacency N).
Proof.
  unfold square. rewrite Forall_lookup. intros a row Hrow.
  pose proof (lookup_lt_Some _ _ _ Hrow) as Ha.
  rewrite path_adjacency_length in Ha |- *.
  apply list_lookup_total_correct in Hrow. subst row.
  rewrite path_adjacency_row by done. by rewrite length_fmap, length_seq.
Qed.

Lemma chain0_square (N : nat) : square (chain0 N).
Proof. rewrite chain0_path. apply fmat_square, path_adjacency_square. Qed.

Lemma chain0_symmetric (N : nat) : symmetric (chain0 N).
Proof.
  intros a b Ha Hb. rewrite chain0_length in Ha, Hb.
  rewrite !chain0_entries by done. repeat case_decide; try done; lia.
Qed.

Lemma qsum_snoc (x : list Qc) (y : Qc) : qsum (x ++ [y]) = (qsum x + y)%Qc.
Proof.
  induction x as [|a x IH]; simpl.
  - unfold qsum. simpl. ring.
  - change (qsum (a :: x ++ [y])) with (a + qsum (x ++ [y]))%Qc.
    rewrite IH. change (qsum (a :: x)) with (a + qsum x)%Qc. ring.
Qed.

Lemma path_row_sum (a n : nat) :
  qsum ((λ b, if decide (a + 1 = b ∨ b + 1 = a) then 1%Qc else 0%Qc)
          <$> seq 0 n)
  = path_neighbours n a.
Proof.
  unfold path_neighbours. induction n as [|n IH].
  - simpl. rewrite !decide_False by lia. unfold qsum. simpl. ring.
  - rewrite seq_S, fmap_app, list_fmap_singleton, qsum_snoc, IH.
    cbn [plus].
    repeat case_decide; try lia; ring.
Qed.

Lemma chain0_degree (N i : nat) :
  i < N → np_sum (chain0 N !!! i) = Fin (path_neighbours N i).
Proof.
  intros Hi. rewrite chain0_path.
  assert (fmat (path_adjacency N) !!! i = Fin <$> path_adjacency N !!! i)
    as ->.
  { unfold fmat. apply list_lookup_total_correct.
    rewrite list_lookup_fmap.
    rewrite (list_lookup_lookup_total_lt (path_adjacency N) i)
      by (by rewrite path_adjacency_length). done. }
  by rewrite np_sum_fin, path_adjacency_row, path_row_sum.
Qed.

(** ** Pipelines *)

Lemma matrix_with_void_sym (mat0 : matrix) (p_void : np_float) (mat : matrix) :
  square mat0 → symmetric mat0 → matrix_with_void mat0 p_void = Ok mat →
  length mat = length mat0 + 1 ∧ square mat ∧ symmetric mat.
Proof.
  intros Hsq Hsym Hmat.
  destruct (matrix_with_void_layout mat0 p_void Hsq)
    as (mat2 & Hmat2 & Hlen & Hsq2 & Hblock & Hvoid & Hcorner).
  rewrite Hmat in Hmat2. injection Hmat2 as <-.
  split; [done|]. split; [done|].
  intros a b Ha Hb. rewrite Hlen in Ha, Hb.
  destruct (decide (a < length mat0)) as [Ha'|Ha'],
    (decide (b < length mat0)) as [Hb'|Hb'].
  - rewrite !Hblock by done. by apply Hsym.
  - replace b with (length mat0) by lia.
    by destruct (Hvoid a Ha') as [-> ->].
  - replace a with (length mat0) by lia.
    by destruct (Hvoid b Hb') as [-> ->].
  - by replace a with (length mat0) by lia;
      replace b with (length mat0) by lia.
Qed.

(** X17.  The chain of the example.  The loop that sets [chain0[i,i-1]] and
    [chain0[i-1,i]] for [i] from 1 to N-1 builds the adjacency matrix of the
    path on N sites: 1 between consecutive sites and 0 elsewhere, a square
    symmetric matrix whose row [i] sums to the number of neighbours of
    [i]. *)
Theorem chain0_is_path (N : nat) :
  chain0 N = fmat (path_adjacency N)
  ∧ square (chain0 N) ∧ symmetric (chain0 N)
  ∧ ∀ i, i < N → np_sum (chain0 N !!! i) = Fin (path_neighbours N i).
Proof.
  split; [apply chain0_path|]. split; [apply chain0_square|].
  split; [apply chain0_symmetric|]. intros i. apply chain0_degree.
Qed.

(** X18.  The chain with its void node.  For a finite [p_void] other than
    1, [chain] is a symmetric matrix on N+1 sites that keeps the chain in
    its first N sites and couples site [i] to the void with weight
    p_void/(1-p_void) times the number of its neighbours: once for the two
    ends, twice inside the chain. *)
Theorem chain_void_coupling (N : nat) (p : Qc) :
  p ≠ 1%Qc →
  ∃ mat, chain N (Fin p) = Ok mat
    ∧ length mat = N + 1 ∧ square mat ∧ symmetric mat
    ∧ (∀ a b, a < N → b < N →
         (mat !!! a) !!! b
         = if decide (a + 1 = b ∨ b + 1 = a) then 1%F else 0%F)
    ∧ ∀ i, i < N →
        (mat !!! i) !!! N = Fin (p * path_neighbours N i / (1 - p))%Qc.
Proof.
  intros Hp. unfold chain.
  destruct (matrix_with_void_layout (chain0 N) (Fin p) (chain0_square N))
    as (mat & Hmat & Hlen & Hsq & Hblock & Hvoid & Hcorner).
  destruct (matrix_with_void_sym (chain0 N) (Fin p) mat (chain0_square N)
              (chain0_symmetric N) Hmat) as (_ & _ & Hsym).
  rewrite chain0_length in *.
  exists mat. split; [done|]. split; [done|]. split; [done|].
  split; [done|]. split.
  - intros a b Ha Hb. rewrite Hblock by done. by apply chain0_entries.
  - intros i Hi. destruct (Hvoid i Hi) as [-> _].
    rewrite chain0_degree by done.
    change (Fin p * Fin (path_neighbours N i))%F
      with (Fin (p * path_neighbours N i)).
    change (1 - Fin p)%F with (Fin (1 - p)).
    rewrite fdiv_fin by (by apply one_minus_neq_0). done.
Qed.

(** X19.  A domain on a decay background, with its void node.  Within the
    bounds, the matrix that [add_tad] makes from a decay matrix is accepted
    by the augmenter, and the augmented matrix is a square symmetric matrix
    on n + 1 sites: every stage of the pipeline hands the next one a matrix
    of the kind it expects. *)
Theorem domain_pipeline np_power (n s e : nat) (alpha beta p_void : np_float) :
  s ≤ e → e ≤ n →
  ∃ tad0 tad,
    add_tad np_power (uniform_decay np_power n alpha) s e beta = Ok tad0
    ∧ matrix_with_void tad0 p_void = Ok tad
    ∧ length tad = n + 1 ∧ square tad ∧ symmetric tad.
Proof.
  intros Hse He.
  destruct (uniform_decay_layout np_power n alpha) as (Hn & _ & _).
  destruct (add_tad_sym np_power (uniform_decay np_power n alpha) s e beta)
    as (tad0 & Htad0 & Hlen0 & Hsq0 & Hsym0);
    [apply uniform_decay_square|apply uniform_decay_sym|done|lia|].
  destruct (matrix_with_void_layout tad0 p_void Hsq0) as (tad & Htad & _).
  destruct (matrix_with_void_sym tad0 p_void tad Hsq0 Hsym0 Htad)
    as (Hlen & Hsq & Hsym).
  exists tad0, tad. rewrite Hlen, Hlen0, Hn. done.
Qed.

(** * Further properties on concrete inputs *)


(** The solver returns on [A0]. *)
Lemma GMFPT_theory_returns_witness :
  ∃ T, GMFPT_theory (eig_A0 no_flip) A0 true = Ok T ∧ length T = 4.
Proof.
  destruct (GMFPT_theory_returns (eig_A0 no_flip) A0 w0 vr0 true)
    as (T & HT & Hl).
  - compute_done.
  - apply A0_eig_shape.
  - by left.
  - by exists T.
Defined.

(** On a 2 x 3 array the subtraction [np.diag(d) - A] raises, whatever the
    eigen-solver. *)
Lemma GMFPT_theory_raises_witness :
  GMFPT_theory eig_B0 wide_matrix true = Raise ValueError
  ∧ laplacian wide_matrix ≫= eig_B0 = Raise ValueError.
Proof.
  assert (H : GMFPT_theory eig_B0 wide_matrix true = Raise ValueError)
    by compute_done.
  split; [exact H|].
  destruct (GMFPT_theory_raises eig_B0 wide_matrix true ValueError)
    as [HL|(Hne & _)]; [|exact H|exact HL|discriminate Hne].
  intros w vr Hw. exfalso. revert Hw. compute_done.
Defined.

(** The triangle with p_void = 1/3: the augmented graph is the complete
    graph on four nodes, and the weighted solver returns four times. *)
Lemma K4_spectrum :
  matrix_with_void (fmat K3q) (Fin (rat 1 3)) = Ok (fmat K4q)
  ∧ laplacian (fmat K4q) = Ok (fmat LK4q)
  ∧ eigen_check LK4q wK4 vrB = true.
Proof. repeat split; compute_done. Qed.

Lemma augment_then_solve_witness :
  ∃ mat T, matrix_with_void (fmat K3q) (Fin (rat 1 3)) = Ok mat
    ∧ GMFPT_theory eig_K4 mat true = Ok T ∧ length T = 4.
Proof.
  destruct (augment_then_solve eig_K4 (fmat K3q) (Fin (rat 1 3)))
    as (mat & Hmat & Hlap & Hsolve); [repeat constructor|].
  destruct (Hsolve wK4 vrB) as (T & HT & Hl).
  - destruct (laplacian mat); [reflexivity|discriminate Hlap].
  - repeat split; repeat constructor.
  - by exists mat, T.
Defined.

(** Reversing the third eigenvector of [A0]. *)
Lemma GMFPT_unweighted_sign_free_witness :
  GMFPT_theory (eig_A0 [false; false; true; false]) A0 false
  = GMFPT_theory (eig_A0 no_flip) A0 false.
Proof.
  apply (GMFPT_unweighted_sign_free (eig_A0 no_flip)
           (eig_A0 [false; false; true; false]) A0q w0 vr0
           [false; false; true; false]); compute_done.
Defined.

(** Four sites with alpha = -1: the profile is 6/11, 3/11, 2/11, and the
    entry between sites 0 and 3 is its last value. *)
Lemma uniform_decay_by_distance_witness :
  (uniform_decay power_example 4 (Fin (rat (-1) 1)) !!! 0) !!! 3
  = Fin (rat 2 11).
Proof.
  destruct (uniform_decay_by_distance power_example 4 (Fin (rat (-1) 1)) 0 3)
    as (_ & _ & H); [lia|lia|].
  etrans; [exact H|]. compute_done.
Defined.

(** A domain on the sites 1 and 2 of [A0]. *)
Lemma add_tad_effect_witness :
  ∃ mat', add_tad power_example A0 1 3 (Fin (rat (-1) 1)) = Ok mat'
    ∧ length mat' = 4
    ∧ (mat' !!! 1) !!! 2 = Fin (rat 7 1) ∧ (mat' !!! 1) !!! 3 = Fin (rat 3 1).
Proof.
  destruct (add_tad_effect power_example A0 1 3 (Fin (rat (-1) 1)))
    as (mat' & Hmat' & Hlen & _ & Hent).
  - apply A0_square.
  - lia.
  - simpl. lia.
  - exists mat'. split; [exact Hmat'|]. split; [exact Hlen|]. split.
    + etrans; [apply Hent; simpl; lia|]. compute_done.
    + etrans; [apply Hent; simpl; lia|]. compute_done.
Defined.

Lemma add_tad_symmetric_witness :
  ∃ mat', add_tad power_example A0 1 3 (Fin (rat (-1) 1)) = Ok mat'
    ∧ symmetric mat'.
Proof.
  apply (add_tad_symmetric power_example A0 1 3 (Fin (rat (-1) 1))).
  - apply A0_square.
  - apply A0_symmetric.
  - lia.
  - simpl. lia.
Defined.

(** A domain of four sites from site 1 does not fit in [A0]. *)
Lemma add_tad_out_of_range_witness :
  add_tad power_example A0 1 5 (Fin (rat (-1) 1)) = Raise ValueError.
Proof.
  apply (add_tad_out_of_range power_example A0 1 5 (Fin (rat (-1) 1))).
  - apply A0_square.
  - right. simpl. lia.
Defined.

(** A store that holds [A0] only: after [add_tad] it holds the matrix with
    the domain at the same reference. *)
Lemma add_tad_in_place_witness :
  ∃ m', add_tad power_example A0 1 3 (Fin (rat (-1) 1)) = Ok m'
    ∧ (InPlace.add_tad power_example 0 1 3 (Fin (rat (-1) 1))
         [Store.Mat A0]).1 = Ok 0
    ∧ (InPlace.add_tad power_example 0 1 3 (Fin (rat (-1) 1))
         [Store.Mat A0]).2 !! 0 = Some (Store.Mat m').
Proof.
  destruct (add_tad_in_range power_example A0 1 3 (Fin (rat (-1) 1)))
    as (m' & Hm' & _); [apply A0_square|lia|simpl; lia|].
  exists m'. split; [exact Hm'|].
  pose proof (add_tad_in_place power_example [Store.Mat A0] 0 A0 m' 1 3
                (Fin (rat (-1) 1)) eq_refl Hm') as H.
  destruct (InPlace.add_tad power_example 0 1 3 (Fin (rat (-1) 1))
              [Store.Mat A0]) as [res h'].
  destruct H as (Hres & Hh & _). split; [exact Hres|exact Hh].
Defined.

Lemma draws_example_in_range (n_noise : nat) (p : nat * nat) :
  p ∈ draws_example 0 (length A0) n_noise →
  p.1 < length A0 ∧ p.2 < length A0.
Proof.
  unfold draws_example. intros Hp%elem_of_take. destruct Hp as (i & Hp & _).
  destruct i as [|[|[|i]]]; simpl in Hp; try done;
    injection Hp as <-; simpl; lia.
Qed.

Lemma draws_balanced_in_range (n_noise : nat) (p : nat * nat) :
  p ∈ draws_balanced 0 (length A0) n_noise →
  p.1 < length A0 ∧ p.2 < length A0.
Proof.
  unfold draws_balanced. intros Hp%elem_of_take. destruct Hp as (i & Hp & _).
  destruct i as [|[|[|i]]]; simpl in Hp; try done;
    injection Hp as <-; simpl; lia.
Qed.

(** Three draws on [A0]: the pair (0,1) twice, the pair (2,3) once. *)
Lemma add_noise_counts_witness :
  ∃ M', add_noise draws_example A0 3 = Some M'
    ∧ (M' !!! 0) !!! 1 = Fin (rat 2 1) ∧ (M' !!! 1) !!! 0 = 0%F
    ∧ (M' !!! 2) !!! 3 = Fin (rat 5 1).
Proof.
  destruct (add_noise_counts draws_example A0 3)
    as (M' & HM' & _ & _ & Hent).
  - apply A0_square.
  - apply draws_example_in_range.
  - exists M'. split; [exact HM'|]. split; [|split].
    + etrans; [apply Hent; simpl; lia|]. compute_done.
    + etrans; [apply Hent; simpl; lia|]. compute_done.
    + etrans; [apply Hent; simpl; lia|]. compute_done.
Defined.

(** After these draws the matrix is no longer symmetric. *)
Lemma add_noise_breaks_symmetry :
  ∃ M', add_noise draws_example A0 3 = Some M'
    ∧ (M' !!! 0) !!! 1 ≠ (M' !!! 1) !!! 0.
Proof. eexists. split; [reflexivity|]. compute_done. Qed.

(** The draws (0,1), (1,0) and (2,2) on [A0] leave a symmetric matrix. *)
Lemma add_noise_symmetric_witness :
  ∃ M', add_noise draws_balanced A0 3 = Some M' ∧ symmetric M'.
Proof.
  apply (add_noise_symmetric draws_balanced A0 3).
  - apply A0_square.
  - apply A0_symmetric.
  - apply draws_balanced_in_range.
  - intros a b Ha Hb. simpl in Ha, Hb.
    destruct a as [|[|[|[|a]]]]; try lia;
      destruct b as [|[|[|[|b]]]]; try lia; reflexivity.
Defined.

(** The chain of the notebook: ten sites and p_void = 3/10. *)
Lemma chain_void_coupling_witness :
  ∃ mat, chain 10 (Fin (rat 3 10)) = Ok mat
    ∧ length mat = 11
    ∧ (mat !!! 0) !!! 10 = Fin (rat 3 7)
    ∧ (mat !!! 1) !!! 10 = Fin (rat 6 7).
Proof.
  destruct (chain_void_coupling 10 (rat 3 10))
    as (mat & Hmat & Hlen & _ & _ & _ & Hv); [compute_done|].
  exists mat. split; [exact Hmat|]. split; [exact Hlen|]. split.
  - etrans; [apply Hv; lia|]. compute_done.
  - etrans; [apply Hv; lia|]. compute_done.
Defined.

Lemma domain_pipeline_witness :
  ∃ tad0 tad,
    add_tad power_example
      (uniform_decay power_example 4 (Fin (rat (-1) 1))) 1 3
      (Fin (rat (-1) 1)) = Ok tad0
    ∧ matrix_with_void tad0 (Fin (rat 3 10)) = Ok tad
    ∧ length tad = 5 ∧ square tad ∧ symmetric tad.
Proof.
  apply (domain_pipeline power_example 4 1 3 (Fin (rat (-1) 1))
           (Fin (rat (-1) 1)) (Fin (rat 3 10))); lia.
Defined.
